(** * Static suite/test tree synthesis of [typecheck/collect.ts]

  A shallow embedding of [collectTests] and its helpers
  ([getName], the [CallExpression] visitor, [updateLatestSuite], the
  [forEach] that builds the task tree, [getNodeAsString] and
  [mergeTemplateLiteral]), followed by the properties proved about them.

  Offsets are JavaScript numbers holding integers: they are modelled as [Z].
  Source text and names are modelled as [string] (one character per code
  unit).  The mutable task objects linked by [suite] back references live in
  an explicit store, a list of tasks indexed by address. *)

From Stdlib Require Import ZArith String Ascii Lia Sorted.
From stdpp Require Import base list strings gmap.
From Stdlib Require Import Recdef.

Local Open Scope Z_scope.

(** ** JavaScript string primitives used by the source *)

Module Js.

Lemma append_cons (c : ascii) (a b : string) :
  String c a +:+ b = String c (a +:+ b).
Proof. reflexivity. Qed.

Lemma append_assoc (a b c : string) : (a +:+ b) +:+ c = a +:+ (b +:+ c).
Proof.
  induction a as [|x a IH]; [reflexivity|].
  rewrite !append_cons, IH; reflexivity.
Qed.

Lemma length_append (a b : string) :
  String.length (a +:+ b) = (String.length a + String.length b)%nat.
Proof.
  induction a as [|c a IH]; [reflexivity|].
  rewrite append_cons; simpl; now rewrite IH.
Qed.

(** [s.startsWith(p)] *)
Fixpoint startsWith (p s : string) : bool :=
  match p, s with
  | EmptyString, _ => true
  | String a p', String b s' => Ascii.eqb a b && startsWith p' s'
  | String _ _, EmptyString => false
  end.

(** The text of [s] after the prefix [p], when [s] starts with [p]. *)
Fixpoint stripPrefix (p s : string) : option string :=
  match p, s with
  | EmptyString, _ => Some s
  | String a p', String b s' =>
      if Ascii.eqb a b then stripPrefix p' s' else None
  | String _ _, EmptyString => None
  end.

(** An offset argument of [slice], made relative to a string of length
    [len]: negative offsets count from the end, and the result is clamped to
    [0 .. len]. *)
Definition relativeIndex (len i : Z) : Z :=
  if i <? 0 then Z.max (len + i) 0 else Z.min i len.

(** [s.slice(from, to)] *)
Definition slice (s : string) (from to : Z) : string :=
  let len := Z.of_nat (String.length s) in
  let a := relativeIndex len from in
  let b := relativeIndex len to in
  String.substring (Z.to_nat a) (Z.to_nat (Z.max (b - a) 0)) s.

End Js.

(** ** The Vite 6 identity unwrapping

  [request.code.replace(/__vite_ssr_identity__\((\w+\.\w+)\)/g,
                        '(                     $1)')] *)

Module Rewrite.

(** The character class [\w]. *)
Definition isWord (c : ascii) : bool :=
  let n := nat_of_ascii c in
  ((48 <=? n) && (n <=? 57) || (65 <=? n) && (n <=? 90)
   || (97 <=? n) && (n <=? 122) || (n =? 95))%nat.

(** A greedy [\w*]: the longest run of word characters at the head of [s],
    and what follows it. *)
Fixpoint spanWord (s : string) : string * string :=
  match s with
  | EmptyString => (EmptyString, EmptyString)
  | String c rest =>
      if isWord c
      then let '(w, r) := spanWord rest in (String c w, r)
      else (EmptyString, s)
  end.

Definition identityPrefix : string := "__vite_ssr_identity__(".

(** One attempt of the regular expression at the head of [s]: the text of
    the capture group and the text after the match.  Each [\w+] is followed
    in the pattern by a character that is not a word character, so the only
    run that can match is the longest one and backtracking never finds
    another match. *)
Definition matchIdentity (s : string) : option (string * string) :=
  match Js.stripPrefix identityPrefix s with
  | None => None
  | Some r0 =>
      match spanWord r0 with
      | (EmptyString, _) => None
      | (w1, String "."%char r1) =>
          match spanWord r1 with
          | (EmptyString, _) => None
          | (w2, String ")"%char r2) =>
              Some (w1 +:+ String "."%char w2, r2)
          | _ => None
          end
      | _ => None
      end
  end.

(** The replacement string ['(                     $1)']. *)
Definition padding : string := "                     ".

Definition replacement (group1 : string) : string :=
  String "("%char (padding +:+ group1 +:+ ")").

Lemma stripPrefix_app p s r :
  Js.stripPrefix p s = Some r -> s = p +:+ r.
Proof.
  revert s; induction p as [|a p IH]; intros [|b s]; simpl;
    try (intros [= <-]; reflexivity); try discriminate.
  destruct (Ascii.eqb_spec a b) as [->|]; [|discriminate].
  intros H; apply IH in H; subst s; reflexivity.
Qed.

Lemma spanWord_app s :
  s = fst (spanWord s) +:+ snd (spanWord s).
Proof.
  induction s as [|c s IH]; simpl; [reflexivity|].
  destruct (isWord c); [|reflexivity].
  destruct (spanWord s) as [w r]; simpl in *.
  rewrite Js.append_cons; congruence.
Qed.

(** What a successful match consumed: the prefix, the group and [")"]. *)
Lemma matchIdentity_shape s g r :
  matchIdentity s = Some (g, r) ->
  s = identityPrefix +:+ (g +:+ String ")"%char r).
Proof.
  unfold matchIdentity.
  destruct (Js.stripPrefix identityPrefix s) as [r0|] eqn:E0; [|discriminate].
  apply stripPrefix_app in E0. subst s.
  pose proof (spanWord_app r0) as H0.
  destruct (spanWord r0) as [w1 r1]; simpl in H0.
  destruct w1 as [|c1 w1]; [discriminate|].
  destruct r1 as [|d r1]; [discriminate|].
  destruct (Ascii.eqb_spec d "."%char) as [->|Hd].
  2:{ destruct d as [[] [] [] [] [] [] [] []]; try discriminate;
      exfalso; apply Hd; reflexivity. }
  pose proof (spanWord_app r1) as H1.
  destruct (spanWord r1) as [w2 r2]; simpl in H1.
  destruct w2 as [|c2 w2]; [discriminate|].
  destruct r2 as [|e r2]; [discriminate|].
  destruct (Ascii.eqb_spec e ")"%char) as [->|He].
  2:{ destruct e as [[] [] [] [] [] [] [] []]; try discriminate;
      exfalso; apply He; reflexivity. }
  intros [= <- <-]. f_equal. rewrite H0.
  rewrite Js.append_assoc. f_equal. rewrite Js.append_cons. f_equal.
  exact H1.
Qed.

Lemma matchIdentity_shorter s g r :
  matchIdentity s = Some (g, r) ->
  (String.length r < String.length s)%nat.
Proof.
  intros H. rewrite (matchIdentity_shape _ _ _ H), !Js.length_append.
  simpl. lia.
Qed.

(** The global replace: try the pattern at the current position; on a match
    emit the replacement and resume after the match, otherwise copy one
    character and resume at the next one. *)
Function unwrapIdentity (s : string) {measure String.length s} : string :=
  match s with
  | EmptyString => EmptyString
  | String c rest =>
      match matchIdentity s with
      | Some (g, after) => replacement g +:+ unwrapIdentity after
      | None => String c (unwrapIdentity rest)
      end
  end.
Proof.
  - intros s c rest Hs p g after Hp Hm. subst.
    apply (matchIdentity_shorter _ _ _ Hm).
  - intros. subst. simpl. lia.
Defined.

(** The spans of [s] that the global replace rewrites, as (offset, length)
    pairs, [offset] being the offset of [s] itself in the whole text. *)
Function matchSpans (offset : nat) (s : string) {measure String.length s}
  : list (nat * nat) :=
  match s with
  | EmptyString => []
  | String c rest =>
      match matchIdentity s with
      | Some (g, after) =>
          let len := (String.length s - String.length after)%nat in
          (offset, len) :: matchSpans (offset + len) after
      | None => matchSpans (S offset) rest
      end
  end.
Proof.
  - intros offset s c rest Hs p g after Hp Hm. subst.
    apply (matchIdentity_shorter _ _ _ Hm).
  - intros. subst. simpl. lia.
Defined.

(** Offset [i] lies in one of the [spans]. *)
Definition inSpans (spans : list (nat * nat)) (i : nat) : Prop :=
  Exists (fun span => fst span <= i < fst span + snd span)%nat spans.

End Rewrite.

(** ** The syntax tree handed over by the parser

    ESTree nodes, as a sum type over the node kinds the collector tells apart.
    Every node carries its [start] and [end] offsets.  Node kinds the
    collector treats alike are gathered under [Other], with their children in
    source order. *)

Module Ast.

(** The [value] of a [Literal].  For numbers, bigints and regular expressions
    the node carries the text that [String(value)] gives. *)
Inductive literalValue :=
| LitString (s : string)
| LitBoolean (b : bool)
| LitNull
| LitOther (shown : string).

#[local] Set Warnings "-register-all".

Inductive node :=
| Identifier (start end_ : Z) (name : string)
| PrivateIdentifier (start end_ : Z) (name : string)
| Literal (start end_ : Z) (value : literalValue) (raw : string)
| TemplateLiteral (start end_ : Z) (quasis : list string) (expressions : list node)
| TaggedTemplateExpression (start end_ : Z) (tag quasi : node)
| CallExpression (start end_ : Z) (callee : node) (arguments : list node)
| MemberExpression (start end_ : Z) (object property : node)
| MetaProperty (start end_ : Z) (meta property : node)
| Other (type : string) (start end_ : Z) (children : list node).

Definition start (n : node) : Z :=
  match n with
  | Identifier s _ _ | PrivateIdentifier s _ _ | Literal s _ _ _
  | TemplateLiteral s _ _ _ | TaggedTemplateExpression s _ _ _
  | CallExpression s _ _ _ | MemberExpression s _ _ _ | MetaProperty s _ _ _
  | Other _ s _ _ => s
  end.

Definition end_ (n : node) : Z :=
  match n with
  | Identifier _ e _ | PrivateIdentifier _ e _ | Literal _ e _ _
  | TemplateLiteral _ e _ _ | TaggedTemplateExpression _ e _ _
  | CallExpression _ e _ _ | MemberExpression _ e _ _ | MetaProperty _ e _ _
  | Other _ _ e _ => e
  end.

(** [n.name], [undefined] for the nodes that have no such field. *)
Definition name (n : node) : option string :=
  match n with
  | Identifier _ _ x | PrivateIdentifier _ _ x => Some x
  | _ => None
  end.

(** [n.property] *)
Definition property (n : node) : option node :=
  match n with
  | MemberExpression _ _ _ p | MetaProperty _ _ _ p => Some p
  | _ => None
  end.

(** [String(value)] *)
Definition jsString (v : literalValue) : string :=
  match v with
  | LitString s => s
  | LitBoolean true => "true"
  | LitBoolean false => "false"
  | LitNull => "null"
  | LitOther shown => shown
  end.

(** The call expressions in and below [n], in the order in which the walker
    reaches their visitor (children first). *)
Fixpoint calls (n : node) : list node :=
  match n with
  | Identifier _ _ _ | PrivateIdentifier _ _ _ | Literal _ _ _ _
  | MetaProperty _ _ _ _ => []
  | TemplateLiteral _ _ _ es => flat_map calls es
  | TaggedTemplateExpression _ _ t q => calls t ++ calls q
  | MemberExpression _ _ o p => calls o ++ calls p
  | CallExpression _ _ c args => calls c ++ flat_map calls args ++ [n]
  | Other _ _ _ cs => flat_map calls cs
  end.

(** [n.arguments] of a call expression. *)
Definition arguments (n : node) : list node :=
  match n with
  | CallExpression _ _ _ args => args
  | _ => []
  end.

(** The ranges [ranges] follow one another inside [lo .. hi]. *)
Fixpoint inOrder (lo hi : Z) (ranges : list (Z * Z)) : bool :=
  match ranges with
  | [] => lo <=? hi
  | (s, e) :: rest => (lo <=? s) && (s <=? e) && inOrder e hi rest
  end.

Definition range (n : node) : Z * Z := (start n, end_ n).

(** Offsets as a parser produces them: the children of a node lie inside its
    range, in source order and without overlap. *)
Fixpoint wellFormed (n : node) : bool :=
  match n with
  | Identifier s e _ | PrivateIdentifier s e _ | Literal s e _ _ => s <=? e
  | TemplateLiteral s e _ es =>
      inOrder s e (List.map range es) && forallb wellFormed es
  | TaggedTemplateExpression s e t q =>
      inOrder s e [range t; range q] && wellFormed t && wellFormed q
  | CallExpression s e c args =>
      inOrder s e (range c :: List.map range args)
      && wellFormed c && forallb wellFormed args
  | MemberExpression s e o p =>
      inOrder s e [range o; range p] && wellFormed o && wellFormed p
  | MetaProperty s e m p =>
      inOrder s e [range m; range p] && wellFormed m && wellFormed p
  | Other _ s e cs =>
      inOrder s e (List.map range cs) && forallb wellFormed cs
  end.

(** Induction on nodes, with the hypothesis available for every child. *)
Section NodeInduction.
Variable P : node -> Prop.
Hypothesis HIdentifier : forall s e x, P (Identifier s e x).
Hypothesis HPrivate : forall s e x, P (PrivateIdentifier s e x).
Hypothesis HLiteral : forall s e v raw, P (Literal s e v raw).
Hypothesis HTemplate :
  forall s e qs es, Forall P es -> P (TemplateLiteral s e qs es).
Hypothesis HTagged :
  forall s e t q, P t -> P q -> P (TaggedTemplateExpression s e t q).
Hypothesis HCall :
  forall s e c args, P c -> Forall P args -> P (CallExpression s e c args).
Hypothesis HMember :
  forall s e o p, P o -> P p -> P (MemberExpression s e o p).
Hypothesis HMeta :
  forall s e m p, P m -> P p -> P (MetaProperty s e m p).
Hypothesis HOther :
  forall k s e cs, Forall P cs -> P (Other k s e cs).

Fixpoint node_induction (n : node) : P n :=
  let all :=
    fix all (l : list node) : Forall P l :=
      match l with
      | [] => List.Forall_nil P
      | x :: l' => @List.Forall_cons _ P x l' (node_induction x) (all l')
      end in
  match n with
  | Identifier s e x => HIdentifier s e x
  | PrivateIdentifier s e x => HPrivate s e x
  | Literal s e v raw => HLiteral s e v raw
  | TemplateLiteral s e qs es => HTemplate s e qs es (all es)
  | TaggedTemplateExpression s e t q =>
      HTagged s e t q (node_induction t) (node_induction q)
  | CallExpression s e c args =>
      HCall s e c args (node_induction c) (all args)
  | MemberExpression s e o p =>
      HMember s e o p (node_induction o) (node_induction p)
  | MetaProperty s e m p =>
      HMeta s e m p (node_induction m) (node_induction p)
  | Other k s e cs => HOther k s e cs (all cs)
  end.
End NodeInduction.

End Ast.

(** ** Name resolver: [getNodeAsString] and [mergeTemplateLiteral] *)

Module NameResolver.
Import Ast.

(** The text one interpolated expression contributes to the merged template:
    the body of the [if (expressionsIndex in node.expressions)] block, with the
    recursive call to [getNodeAsString] passed as [asString]. *)
Definition interpolation (asString : node -> string) (expression : node) : string :=
  let string :=
    match expression with
    | Literal _ _ _ raw => raw
    | _ => asString expression
    end in
  match expression with
  | TemplateLiteral _ _ _ _ => "${`" +:+ string +:+ "`}"
  | _ => "${" +:+ string +:+ "}"
  end.

(** The [for] loop of [mergeTemplateLiteral] over the quasis, [pieces] being
    the texts of the expressions not yet consumed. *)
Fixpoint mergeLoop (quasis : list string) (pieces : list string) : string :=
  match quasis with
  | [] => EmptyString
  | raw :: quasis' =>
      match pieces with
      | [] => raw +:+ mergeLoop quasis' []
      | piece :: pieces' => raw +:+ piece +:+ mergeLoop quasis' pieces'
      end
  end.

Fixpoint getNodeAsString (n : node) (code : string) : string :=
  match n with
  | Literal _ _ value _ => jsString value
  | Identifier _ _ x => x
  | TemplateLiteral _ _ quasis expressions =>
      mergeLoop quasis
        (List.map (interpolation (fun e => getNodeAsString e code)) expressions)
  | _ => Js.slice code (start n) (end_ n)
  end.




End NameResolver.

(** ** Task records and call-site records *)

Inductive taskType := suite | test.

(** Addresses of task objects in the store. *)
Abbreviation addr := nat.

Module LocalCallDefinition.
Record t := mk {
  start : Z;
  end_ : Z;
  name : string;
  type : taskType;
  mode : string;
  task : option addr  (* [null] until the tree is built *)
}.
End LocalCallDefinition.

(** [ParsedFile], [ParsedSuite] and [ParsedTest] share the fields the
    collector reads and writes; [suite] is the back reference to the enclosing
    suite, absent on the file, and [tasks] holds the addresses of the
    children. *)
Module Task.
Record t := mk {
  type : taskType;
  id : string;
  name : string;
  mode : string;
  suite : option addr;
  file : addr;
  tasks : list addr;
  start : Z;
  end_ : Z
}.

(** [t.tasks.push(child)] *)
Definition push (child : addr) (x : t) : t :=
  mk (type x) (id x) (name x) (mode x) (suite x) (file x)
     (tasks x ++ [child]) (start x) (end_ x).
End Task.

(** ** Call-site classifier: [getName] and the [CallExpression] visitor *)

Module Classifier.
Import Ast.

Definition ssrPrefix : string := "__vite_ssr_".

(** [getName(callee)] for a callee that is present; the [!callee] test is the
    [None] of the optional fields at the call sites. *)
Fixpoint getName (callee : node) : option string :=
  match callee with
  | Identifier _ _ x => Some x
  | CallExpression _ _ callee' _ => getName callee'
  | TaggedTemplateExpression _ _ tag _ => getName tag
  | MemberExpression _ _ object property =>
      if match Ast.name object with
         | Some x => Js.startsWith ssrPrefix x
         | None => false
         end
      then getName property
      else
        match object with
        | MemberExpression _ _ _ p | MetaProperty _ _ _ p => getName p
        | _ => None
        end
  | _ => None
  end.

Definition keywords : list string := ["it"; "test"; "describe"; "suite"].

(** [list.includes(x)] on strings *)
Definition includes (l : list string) (x : string) : bool :=
  existsb (String.eqb x) l.

(** [callee?.property?.name] *)
Definition propertyName (callee : node) : option string :=
  match Ast.property callee with
  | Some p => Ast.name p
  | None => None
  end.

(** [!property || property === name ? 'run' : property] *)
Definition declaredMode (property : option string) (name : string) : string :=
  match property with
  | None => "run"
  | Some p => if String.eqb p "" || String.eqb p name then "run" else p
  end.

Definition modifiers : list string := ["each"; "skipIf"; "runIf"; "for"].

(** The start offset chosen by the visitor. *)
Definition effectiveStart (nodeStart : Z) (callee : node) : Z :=
  match callee with
  | CallExpression _ calleeEnd _ _ => calleeEnd
  | TaggedTemplateExpression _ calleeEnd _ _ => calleeEnd + 1
  | _ => nodeStart
  end.

(** The body of the [CallExpression] visitor: [Some d] when it pushes [d] on
    [definitions], [None] when it returns early. *)
Definition visitCallExpression (code : string) (n : node)
  : option LocalCallDefinition.t :=
  match n with
  | CallExpression nodeStart nodeEnd callee arguments =>
      match getName callee with
      | None => None
      | Some name =>
          if String.eqb name "" then None
          else if negb (includes keywords name) then None
          else
            let mode := declaredMode (propertyName callee) name in
            if includes modifiers mode then None
            else
              match arguments with
              | [] => None
              | messageNode :: _ =>
                  Some (LocalCallDefinition.mk
                          (effectiveStart nodeStart callee)
                          nodeEnd
                          (NameResolver.getNodeAsString messageNode code)
                          (if String.eqb name "it" || String.eqb name "test"
                           then test else suite)
                          mode
                          None)
              end
      end
  | _ => None
  end.

(** [walkAst(ast, { CallExpression })]: the walker of acorn-walk calls the
    visitor on every call expression, after it has walked the children of
    the node. *)
Fixpoint walk (code : string) (n : node) : list LocalCallDefinition.t :=
  match n with
  | Identifier _ _ _ | PrivateIdentifier _ _ _ | Literal _ _ _ _
  | MetaProperty _ _ _ _ => []
  | TemplateLiteral _ _ _ es => flat_map (walk code) es
  | TaggedTemplateExpression _ _ t q => walk code t ++ walk code q
  | MemberExpression _ _ o p => walk code o ++ walk code p
  | CallExpression _ _ c args =>
      walk code c ++ flat_map (walk code) args
        ++ match visitCallExpression code n with
           | Some d => [d]
           | None => []
           end
  | Other _ _ _ cs => flat_map (walk code) cs
  end.

(** The kind recorded for a keyword. *)
Definition kindOf (keyword : string) : taskType :=
  if String.eqb keyword "it" || String.eqb keyword "test" then test else suite.

(** The visitor yields a call site of kind [kind] and mode [mode] on [n]. *)
Definition classifiedAs (code : string) (n : node)
    (kind : taskType) (mode : string) : Prop :=
  exists d, visitCallExpression code n = Some d
            /\ LocalCallDefinition.type d = kind
            /\ LocalCallDefinition.mode d = mode.

End Classifier.

(** ** Tree builder: [updateLatestSuite] and the [forEach] over the sorted
    definitions *)

Module Builder.

(** The store: task objects by address. *)
Abbreviation store := (list Task.t).

(** The mutable state of one collection: the task objects and the
    [lastSuite] cursor. *)
Record state := mkState {
  heap : store;
  lastSuite : addr
}.

(** [while (lastSuite.suite && lastSuite.end < index) lastSuite = lastSuite.suite],
    returning the new cursor.  The loop follows back references held in the
    store, so it is given [fuel]; [None] is a cursor outside the store or an
    exhausted fuel. *)
Fixpoint updateLatestSuite (fuel : nat) (h : store) (cursor : addr) (index : Z)
  : option addr :=
  match fuel with
  | O => None
  | S fuel' =>
      match h !! cursor with
      | None => None
      | Some t =>
          match Task.suite t with
          | Some parent =>
              if Task.end_ t <? index
              then updateLatestSuite fuel' h parent index
              else Some cursor
          | None => Some cursor
          end
      end
  end.

(** The mode given to a new task below [latestSuite]. *)
Definition resolveMode (latestSuite : Task.t) (definition : LocalCallDefinition.t)
  : string :=
  if negb (String.eqb (Task.mode latestSuite) "run")
  then Task.mode latestSuite
  else LocalCallDefinition.mode definition.

(** The task object built for a definition, suite or test: the fields the
    two object literals of the callback share. *)
Definition materialize (definition : LocalCallDefinition.t) (mode : string)
    (latest : addr) : Task.t :=
  Task.mk (LocalCallDefinition.type definition) ""
    (LocalCallDefinition.name definition) mode (Some latest) 0%nat []
    (LocalCallDefinition.start definition)
    (LocalCallDefinition.end_ definition).

(** [definition.task = task] *)
Definition assign (definition : LocalCallDefinition.t) (new : addr)
  : LocalCallDefinition.t :=
  LocalCallDefinition.mk
    (LocalCallDefinition.start definition)
    (LocalCallDefinition.end_ definition)
    (LocalCallDefinition.name definition)
    (LocalCallDefinition.type definition)
    (LocalCallDefinition.mode definition)
    (Some new).

(** The body of the [forEach] callback.  The new task is allocated at the end
    of the store; its address is written to [definition.task] and pushed on
    [latestSuite.tasks]; a suite becomes the cursor. *)
Definition place (st : state) (definition : LocalCallDefinition.t)
  : option (state * LocalCallDefinition.t) :=
  let h := heap st in
  match updateLatestSuite (length h) h (lastSuite st)
          (LocalCallDefinition.start definition) with
  | None => None
  | Some latest =>
      match h !! latest with
      | None => None
      | Some latestSuite =>
          let mode := resolveMode latestSuite definition in
          let new := length h in
          let h' :=
            <[latest := Task.push new latestSuite]> h
              ++ [materialize definition mode latest] in
          Some (mkState h'
                  match LocalCallDefinition.type definition with
                  | suite => new
                  | test => latest
                  end,
                assign definition new)
      end
  end.

(** [definitions.forEach(...)] *)
Fixpoint forEach (st : state) (definitions : list LocalCallDefinition.t)
  : option (state * list LocalCallDefinition.t) :=
  match definitions with
  | [] => Some (st, [])
  | d :: rest =>
      match place st d with
      | None => None
      | Some (st1, d1) =>
          match forEach st1 rest with
          | None => None
          | Some (st2, rest2) => Some (st2, d1 :: rest2)
          end
      end
  end.

(** [definitions.sort((a, b) => a.start - b.start)]: a stable sort by start
    offset, here by insertion. *)
Fixpoint insert (d : LocalCallDefinition.t) (l : list LocalCallDefinition.t)
  : list LocalCallDefinition.t :=
  match l with
  | [] => [d]
  | x :: l' =>
      if LocalCallDefinition.start x <=? LocalCallDefinition.start d
      then x :: insert d l'
      else d :: l
  end.

Definition sort (l : list LocalCallDefinition.t) : list LocalCallDefinition.t :=
  fold_left (fun acc d => insert d acc) l [].

(** The [file] object the tree hangs from. *)
Definition fileTask (fileId testFilepath : string) (ast : Ast.node) : Task.t :=
  Task.mk suite fileId testFilepath "run" None 0%nat []
    (Ast.start ast) (Ast.end_ ast).

Definition initial (file : Task.t) : state := mkState [file] 0%nat.

(** The suite the specification names for a call site that starts at [index]:
    reached from the cursor by ascending [suite] links while the end offset is
    less than [index], stopping at the first task that ends at [index] or
    later, or at the file, which has no [suite] link. *)
Inductive enclosing (h : store) (index : Z) : addr -> addr -> Prop :=
| enclosing_here cursor t :
    h !! cursor = Some t ->
    Task.suite t = None \/ index <= Task.end_ t ->
    enclosing h index cursor cursor
| enclosing_up cursor t parent target :
    h !! cursor = Some t ->
    Task.suite t = Some parent ->
    Task.end_ t < index ->
    enclosing h index parent target ->
    enclosing h index cursor target.

(** [a] is the cursor or one of its ancestors. *)
Inductive onChain (h : store) : addr -> addr -> Prop :=
| onChain_here cursor : onChain h cursor cursor
| onChain_up cursor t parent a :
    h !! cursor = Some t ->
    Task.suite t = Some parent ->
    onChain h parent a ->
    onChain h cursor a.

(** The ranges of two call sites, [d] processed before [d'], are disjoint,
    [d] ending before [d'] starts, or nested, [d'] strictly inside the suite
    [d]. *)
Definition apartOrNested (d d' : LocalCallDefinition.t) : Prop :=
  LocalCallDefinition.start d <= LocalCallDefinition.end_ d
  /\ (LocalCallDefinition.end_ d < LocalCallDefinition.start d'
      \/ (LocalCallDefinition.type d = suite
          /\ LocalCallDefinition.start d < LocalCallDefinition.start d'
          /\ LocalCallDefinition.end_ d' < LocalCallDefinition.end_ d)).

(** Call sites in processing order, every two of them apart or nested. *)
Fixpoint laminar (ds : list LocalCallDefinition.t) : Prop :=
  match ds with
  | [] => True
  | d :: rest => Forall (apartOrNested d) rest /\ laminar rest
  end.

(** Every call site lies in the range [lo .. hi]. *)
Definition within (lo hi : Z) (ds : list LocalCallDefinition.t) : Prop :=
  Forall (fun d => lo <= LocalCallDefinition.start d
                   /\ LocalCallDefinition.end_ d <= hi) ds.

(** Every task lies in the range of its suite, strictly so below a suite
    other than the file. *)
Definition contained (h : store) : Prop :=
  forall a t p pt,
    h !! a = Some t -> Task.suite t = Some p -> h !! p = Some pt ->
    Task.start pt <= Task.start t /\ Task.end_ t <= Task.end_ pt
    /\ (p <> 0%nat ->
        Task.start pt < Task.start t /\ Task.end_ t < Task.end_ pt).

(** Every task lies strictly inside the range of its suite. *)
Definition strictlyContained (h : store) : Prop :=
  forall a t p pt,
    h !! a = Some t -> Task.suite t = Some p -> h !! p = Some pt ->
    Task.start pt < Task.start t /\ Task.end_ t < Task.end_ pt.

(** Two tasks of one suite do not overlap: the earlier one ends before the
    later one starts. *)
Definition siblingsApart (h : store) : Prop :=
  forall a b ta tb p, (a < b)%nat ->
    h !! a = Some ta -> h !! b = Some tb ->
    Task.suite ta = Some p -> Task.suite tb = Some p ->
    Task.end_ ta < Task.start tb.

End Builder.

(** ** [collectTests] *)

Module Collect.

Record FileInformation := mkInfo {
  file : addr;
  heap : Builder.store;
  parsed : string;
  definitions : list LocalCallDefinition.t
}.

(** [collectTests] from the transformed code on, up to the calls into the
    external finalizer ([calculateSuiteHash], [someTasksAreOnly],
    [interpretTaskModes]).  [parseAst] is the external parser, [fileId] the
    hash computed for the file and [testFilepath] the relative path. *)
Definition collectTests (parseAst : string -> Ast.node)
    (fileId testFilepath : string) (requestCode : string)
  : option FileInformation :=
  let code := Rewrite.unwrapIdentity requestCode in
  let ast := parseAst code in
  let file := Builder.fileTask fileId testFilepath ast in
  let definitions := Classifier.walk code ast in
  match Builder.forEach (Builder.initial file) (Builder.sort definitions) with
  | None => None
  | Some (st, definitions') =>
      Some (mkInfo 0%nat (Builder.heap st) code definitions')
  end.

End Collect.

(** ** Sample files

    Syntax trees of small test files, with the offsets of their text. *)

Module Examples.

Definition skipSuiteOnlyTest_code : string :=
  "__vite_ssr_import_0__.describe.skip('s', () => { __vite_ssr_import_0__.it.only('t', () => {}) })".

Definition skipSuiteOnlyTest_ast : Ast.node :=
  (Ast.Other "Program" 0 96 [
    (Ast.Other "ExpressionStatement" 0 96 [
      (Ast.CallExpression 0 96
        (Ast.MemberExpression 0 35
          (Ast.MemberExpression 0 30
            (Ast.Identifier 0 21 "__vite_ssr_import_0__")
            (Ast.Identifier 22 30 "describe"))
          (Ast.Identifier 31 35 "skip"))
        [
          (Ast.Literal 36 39 (Ast.LitString "s") "'s'");
          (Ast.Other "ArrowFunctionExpression" 41 95 [
            (Ast.Other "BlockStatement" 47 95 [
              (Ast.Other "ExpressionStatement" 49 93 [
                (Ast.CallExpression 49 93
                  (Ast.MemberExpression 49 78
                    (Ast.MemberExpression 49 73
                      (Ast.Identifier 49 70 "__vite_ssr_import_0__")
                      (Ast.Identifier 71 73 "it"))
                    (Ast.Identifier 74 78 "only"))
                  [
                    (Ast.Literal 79 82 (Ast.LitString "t") "'t'");
                    (Ast.Other "ArrowFunctionExpression" 84 92 [
                      (Ast.Other "BlockStatement" 90 92 [])])])])])])])])]).

Definition onlySuiteSkipTest_code : string :=
  "__vite_ssr_import_0__.describe.only('s', () => { __vite_ssr_import_0__.it.skip('t', () => {}) })".

Definition onlySuiteSkipTest_ast : Ast.node :=
  (Ast.Other "Program" 0 96 [
    (Ast.Other "ExpressionStatement" 0 96 [
      (Ast.CallExpression 0 96
        (Ast.MemberExpression 0 35
          (Ast.MemberExpression 0 30
            (Ast.Identifier 0 21 "__vite_ssr_import_0__")
            (Ast.Identifier 22 30 "describe"))
          (Ast.Identifier 31 35 "only"))
        [
          (Ast.Literal 36 39 (Ast.LitString "s") "'s'");
          (Ast.Other "ArrowFunctionExpression" 41 95 [
            (Ast.Other "BlockStatement" 47 95 [
              (Ast.Other "ExpressionStatement" 49 93 [
                (Ast.CallExpression 49 93
                  (Ast.MemberExpression 49 78
                    (Ast.MemberExpression 49 73
                      (Ast.Identifier 49 70 "__vite_ssr_import_0__")
                      (Ast.Identifier 71 73 "it"))
                    (Ast.Identifier 74 78 "skip"))
                  [
                    (Ast.Literal 79 82 (Ast.LitString "t") "'t'");
                    (Ast.Other "ArrowFunctionExpression" 84 92 [
                      (Ast.Other "BlockStatement" 90 92 [])])])])])])])])]).

Definition testInTest_code : string :=
  "it('a', () => { it('b', () => {}) })".

Definition testInTest_ast : Ast.node :=
  (Ast.Other "Program" 0 36 [
    (Ast.Other "ExpressionStatement" 0 36 [
      (Ast.CallExpression 0 36
        (Ast.Identifier 0 2 "it")
        [
          (Ast.Literal 3 6 (Ast.LitString "a") "'a'");
          (Ast.Other "ArrowFunctionExpression" 8 35 [
            (Ast.Other "BlockStatement" 14 35 [
              (Ast.Other "ExpressionStatement" 16 33 [
                (Ast.CallExpression 16 33
                  (Ast.Identifier 16 18 "it")
                  [
                    (Ast.Literal 19 22 (Ast.LitString "b") "'b'");
                    (Ast.Other "ArrowFunctionExpression" 24 32 [
                      (Ast.Other "BlockStatement" 30 32 [])])])])])])])])]).

Definition chainedSuites_code : string :=
  "describe('a', f)('b', g)".

Definition chainedSuites_ast : Ast.node :=
  (Ast.Other "Program" 0 24 [
    (Ast.Other "ExpressionStatement" 0 24 [
      (Ast.CallExpression 0 24
        (Ast.CallExpression 0 16
          (Ast.Identifier 0 8 "describe")
          [
            (Ast.Literal 9 12 (Ast.LitString "a") "'a'");
            (Ast.Identifier 14 15 "f")])
        [
          (Ast.Literal 17 20 (Ast.LitString "b") "'b'");
          (Ast.Identifier 22 23 "g")])])]).

Definition suiteTwoTests_code : string :=
  "describe('s', () => { it('a'); it('b'); }) ".

Definition suiteTwoTests_ast : Ast.node :=
  (Ast.Other "Program" 0 43 [
    (Ast.Other "ExpressionStatement" 0 42 [
      (Ast.CallExpression 0 42
        (Ast.Identifier 0 8 "describe")
        [
          (Ast.Literal 9 12 (Ast.LitString "s") "'s'");
          (Ast.Other "ArrowFunctionExpression" 14 41 [
            (Ast.Other "BlockStatement" 20 41 [
              (Ast.Other "ExpressionStatement" 22 30 [
                (Ast.CallExpression 22 29
                  (Ast.Identifier 22 24 "it")
                  [
                    (Ast.Literal 25 28 (Ast.LitString "a") "'a'")])]);
              (Ast.Other "ExpressionStatement" 31 39 [
                (Ast.CallExpression 31 38
                  (Ast.Identifier 31 33 "it")
                  [
                    (Ast.Literal 34 37 (Ast.LitString "b") "'b'")])])])])])])]).



Definition nestedTemplate_code : string :=
  "it(`a${`b${x}`}c${1}`, fn)".

Definition nestedTemplate_ast : Ast.node :=
  (Ast.Other "Program" 0 26 [
    (Ast.Other "ExpressionStatement" 0 26 [
      (Ast.CallExpression 0 26
        (Ast.Identifier 0 2 "it")
        [
          (Ast.TemplateLiteral 3 21 ["a"; "c"; ""] [
            (Ast.TemplateLiteral 7 14 ["b"; ""] [
              (Ast.Identifier 11 12 "x")]);
            (Ast.Literal 18 19 (Ast.LitOther "1") "1")]);
          (Ast.Identifier 23 25 "fn")])])]).

Definition bareSkip_code : string :=
  "test.skip('a', fn)".

Definition bareSkip_ast : Ast.node :=
  (Ast.Other "Program" 0 18 [
    (Ast.Other "ExpressionStatement" 0 18 [
      (Ast.CallExpression 0 18
        (Ast.MemberExpression 0 9
          (Ast.Identifier 0 4 "test")
          (Ast.Identifier 5 9 "skip"))
        [
          (Ast.Literal 10 13 (Ast.LitString "a") "'a'");
          (Ast.Identifier 15 17 "fn")])])]).


(** [collectTests] on a sample, the parser returning the sample's tree. *)
Definition collect (code : string) (ast : Ast.node)
  : option Collect.FileInformation :=
  Collect.collectTests (fun _ => ast) "hash" "a.test.ts" code.

End Examples.

(** ** Reading the tree in the store *)

Module Tree.

(** The [suite] link of the task at [c], when there is one. *)
Definition suiteOf (h : list Task.t) (c : addr) : option addr :=
  match h !! c with
  | Some t => Task.suite t
  | None => None
  end.

(** The tasks whose [suite] link points to [p], in the order of their
    addresses, which is the order in which the builder made them. *)
Definition childrenOf (h : list Task.t) (p : addr) : list addr :=
  List.filter (fun c => bool_decide (suiteOf h c = Some p))
    (seq 0 (length h)).

End Tree.

(** ** What the rewrite leaves of a match *)

Module Span.
Import Rewrite.

(** What the rewrite leaves in the span [q .. q + l) of a match. *)
Definition rewrittenSpan (s out : string) (q l : nat) : Prop :=
  (q + l <= String.length s)%nat
  /\ (22 < l)%nat
  /\ String.get q out = Some "("%char
  /\ (forall i, (0 < i < 22)%nat -> String.get (q + i) out = Some " "%char)
  /\ (forall i, (22 <= i < l)%nat ->
        String.get (q + i) out = String.get (q + i) s).

End Span.

(** ** The reporter: merging identical errors

    [BaseReporter.printTaskErrors] first gathers the errors of the failed
    tasks in [errorsQueue], one entry for each group of identical errors, and
    then prints the entries.  The gathering is modelled here; [None] stands
    for a [TypeError]. *)

Module Reporter.

(** The field of an error object that the gathering reads. *)
Record ErrorWithDiff := mkError {
  stackStr : option string;
  message : string
}.

(** The fields of a task that the gathering reads: [task.projectName], set on
    files; [task.file?.projectName]; and [task.result?.errors], whose items
    may be [undefined]. *)
Record ReportedTask := mkTask {
  id : string;
  projectName : option string;
  fileProjectName : option string;
  errors : option (list (option ErrorWithDiff))
}.

(** An entry [[error, tests]] of the queue. *)
Abbreviation entry := (option ErrorWithDiff * list ReportedTask)%type.

(** Truthiness of a string that may be [undefined]. *)
Definition truthy (o : option string) : bool :=
  match o with
  | Some s => negb (String.eqb s "")
  | None => false
  end.

(** [a || b || ''] on strings that may be [undefined]. *)
Definition orElse (a b : option string) : string :=
  if truthy a then default "" a
  else if truthy b then default "" b
  else "".

(** [(task as File)?.projectName || task.file?.projectName || ''] *)
Definition projectOf (task : ReportedTask) : string :=
  orElse (projectName task) (fileProjectName task).

(** [error?.stackStr] *)
Definition stackOf (error : option ErrorWithDiff) : option string :=
  match error with
  | Some e => stackStr e
  | None => None
  end.

(** [a === b] on strings that may be [undefined]. *)
Definition sameStack (a b : option string) : bool :=
  match a, b with
  | Some x, Some y => String.eqb x y
  | None, None => true
  | _, _ => false
  end.

(** The callback given to [errorsQueue.find], for an error of [task] with
    the stack [stack].  Reading [i[1][0].file] on an empty list of tests
    throws. *)
Definition isPrevious (task : ReportedTask) (stack : option string)
    (i : entry) : option bool :=
  if negb (sameStack (stackOf (fst i)) stack) then Some false
  else
    let currentProjectName := projectOf task in
    match snd i with
    | [] => None
    | first :: _ => Some (String.eqb (projectOf first) currentProjectName)
    end.

(** [errorsQueue.find(...)] followed by [previous[1].push(task)]: the queue
    with [task] pushed on the first entry that the callback accepts, or
    [Some None] when no entry is accepted. *)
Fixpoint pushOnPrevious (task : ReportedTask) (stack : option string)
    (queue : list entry) : option (option (list entry)) :=
  match queue with
  | [] => Some None
  | i :: rest =>
      match isPrevious task stack i with
      | None => None
      | Some true => Some (Some ((fst i, snd i ++ [task]) :: rest))
      | Some false =>
          match pushOnPrevious task stack rest with
          | None => None
          | Some None => Some None
          | Some (Some rest') => Some (Some (i :: rest'))
          end
      end
  end.

(** The body of the [forEach] over the errors of [task]. *)
Definition addError (task : ReportedTask) (queue : list entry)
    (error : option ErrorWithDiff) : option (list entry) :=
  let previous :=
    if truthy (stackOf error)
    then pushOnPrevious task (stackOf error) queue
    else Some None in
  match previous with
  | None => None
  | Some (Some queue') => Some queue'
  | Some None => Some (queue ++ [(error, [task])])
  end.

(** [task.result?.errors?.forEach(...)] *)
Fixpoint addErrors (task : ReportedTask) (queue : list entry)
    (errs : list (option ErrorWithDiff)) : option (list entry) :=
  match errs with
  | [] => Some queue
  | error :: rest =>
      match addError task queue error with
      | None => None
      | Some queue' => addErrors task queue' rest
      end
  end.

(** The errors that the gathering sees on a task. *)
Definition errorsOf (task : ReportedTask) : list (option ErrorWithDiff) :=
  default [] (errors task).

(** The [for] loop over the tasks. *)
Fixpoint gather (queue : list entry) (tasks : list ReportedTask)
  : option (list entry) :=
  match tasks with
  | [] => Some queue
  | task :: rest =>
      match addErrors task queue (errorsOf task) with
      | None => None
      | Some queue' => gather queue' rest
      end
  end.

(** The queue that [printTaskErrors] prints. *)
Definition errorsQueue (tasks : list ReportedTask) : option (list entry) :=
  gather [] tasks.

(** The key under which errors are merged. *)
Definition keyOf (i : entry) : option string * string :=
  (stackOf (fst i),
   match snd i with
   | [] => ""
   | first :: _ => projectOf first
   end).

(** Entries whose error has a stack, the only ones that tasks are added
    to. *)
Definition stacked (i : entry) : bool := truthy (stackOf (fst i)).

(** Every error of every task, with its task, in the order of the loops. *)
Definition occurrences (tasks : list ReportedTask)
  : list (ReportedTask * option ErrorWithDiff) :=
  flat_map (fun t => List.map (fun e => (t, e)) (errorsOf t)) tasks.

End Reporter.


(** ** The reporter: counting the reruns of a file

    [BaseReporter.onWatcherRerun] keeps in [_filesInWatchMode] how often each
    file was rerun and shows the count of a file that is rerun alone. *)

Module Watcher.

(** From [2^53] on a double no longer tells an integer from its successor. *)
Definition maxCount : N := (2 ^ 53)%N.

(** [++reruns] on a double that holds an integer between [0] and [2^53]. *)
Definition increment (n : N) : N :=
  if (n <? maxCount)%N then (n + 1)%N else n.

(** The callback of [files.forEach]. *)
Definition countRerun (m : gmap string N) (filepath : string)
  : gmap string N :=
  let reruns := default 0%N (m !! filepath) in
  <[filepath := increment reruns]> m.

(** [files.forEach(...)] on the map [_filesInWatchMode]. *)
Definition countReruns (files : list string) (m : gmap string N)
  : gmap string N :=
  foldl countRerun m files.

(** The number [N] of the [xN] that is added to the banner, if any. *)
Definition rerunShown (files : list string) (m : gmap string N) : option N :=
  if (1 <? length files)%nat || (length files =? 0)%nat then None
  else if (length files =? 1)%nat
       then match files with
            | f :: _ => Some (default 1%N (m !! f))
            | [] => None
            end
       else None.

(** The map after the call, and the number shown. *)
Definition onWatcherRerun (files : list string) (m : gmap string N)
  : gmap string N * option N :=
  let m' := countReruns files m in
  (m', rerunShown files m').

(** The map after a series of calls on a new reporter. *)
Definition session (runs : list (list string)) : gmap string N :=
  foldl (fun m files => fst (onWatcherRerun files m)) ∅ runs.

(** How often [f] was listed in the calls. *)
Definition listed (runs : list (list string)) (f : string) : nat :=
  count_occ string_dec (concat runs) f.

End Watcher.

(** * Properties *)

(** ** The identity unwrapping keeps every offset *)

Module RewriteFacts.
Import Rewrite.

Lemma get_append_r a b i :
  (String.length a <= i)%nat ->
  String.get i (a +:+ b) = String.get (i - String.length a) b.
Proof.
  intros H. rewrite (append_correct2 a b (i - String.length a)).
  f_equal. lia.
Qed.

(** The loop, unfolded once. *)
Lemma unwrapIdentity_cons c rest :
  unwrapIdentity (String c rest)
  = match matchIdentity (String c rest) with
    | Some (g, after) => replacement g +:+ unwrapIdentity after
    | None => String c (unwrapIdentity rest)
    end.
Proof.
  rewrite unwrapIdentity_equation.
  destruct (matchIdentity (String c rest)) as [[g after]|]; reflexivity.
Qed.

Lemma matchSpans_cons offset c rest :
  matchSpans offset (String c rest)
  = match matchIdentity (String c rest) with
    | Some (g, after) =>
        let len := (String.length (String c rest) - String.length after)%nat in
        (offset, len) :: matchSpans (offset + len) after
    | None => matchSpans (S offset) rest
    end.
Proof.
  rewrite matchSpans_equation.
  destruct (matchIdentity (String c rest)) as [[g after]|]; reflexivity.
Qed.

Example unwrapIdentity_sample :
  unwrapIdentity "__vite_ssr_identity__(__vite_ssr_import_0__.test)('a', f)"
  = "(                     __vite_ssr_import_0__.test)('a', f)".
Proof. vm_compute. reflexivity. Qed.

Example matchSpans_sample :
  matchSpans 0 "f(__vite_ssr_identity__(a.b)) + __vite_ssr_identity__(a.b.c)"
  = [(2%nat, 26%nat)].
Proof. vm_compute. reflexivity. Qed.

(** Each replacement is as long as the text it replaces. *)
Lemma replacement_length s g after :
  matchIdentity s = Some (g, after) ->
  String.length (replacement g)
  = (String.length s - String.length after)%nat.
Proof.
  intros H. rewrite (matchIdentity_shape _ _ _ H).
  unfold replacement. simpl String.length.
  rewrite !Js.length_append. simpl. lia.
Qed.

(** Length and offsets, for a text [s] that sits at [offset]. *)
Lemma unwrap_offsets n :
  forall s offset, (String.length s <= n)%nat ->
    String.length (unwrapIdentity s) = String.length s
    /\ forall i, ~ inSpans (matchSpans offset s) (offset + i) ->
         String.get i (unwrapIdentity s) = String.get i s.
Proof.
  induction n as [|n IH]; intros s offset Hn.
  - destruct s; [|simpl in Hn; lia]. split; reflexivity.
  - destruct s as [|c rest]; [split; reflexivity|].
    rewrite unwrapIdentity_cons, matchSpans_cons.
    destruct (matchIdentity (String c rest)) as [[g after]|] eqn:E.
    + pose proof (matchIdentity_shorter _ _ _ E) as Hlt.
      pose proof (replacement_length _ _ _ E) as Hr.
      set (len := (String.length (String c rest) - String.length after)%nat) in *.
      destruct (IH after (offset + len)%nat) as [IHl IHg]; [simpl in *; lia|].
      split.
      * rewrite Js.length_append, IHl, Hr. lia.
      * intros i Hi.
        destruct (Nat.lt_ge_cases i len) as [Hlt'|Hge].
        { exfalso. apply Hi. constructor. simpl. lia. }
        rewrite get_append_r by lia. rewrite Hr.
        rewrite IHg.
        2:{ intros Hin. apply Hi. constructor 2.
            replace (offset + i)%nat with (offset + len + (i - len))%nat by lia.
            exact Hin. }
        assert (Hs : String c rest
                     = (identityPrefix +:+ (g +:+ ")")) +:+ after).
        { rewrite (matchIdentity_shape _ _ _ E) at 1.
          rewrite !Js.append_assoc. reflexivity. }
        assert (Hl : String.length (identityPrefix +:+ (g +:+ ")")) = len).
        { subst len. rewrite Hs at 1. rewrite !Js.length_append. lia. }
        rewrite Hs, get_append_r by lia. now rewrite Hl.
    + destruct (IH rest (S offset)) as [IHl IHg]; [simpl in *; lia|].
      split; [simpl; now rewrite IHl|].
      intros [|i] Hi; [reflexivity|]. simpl. apply IHg.
      replace (S offset + i)%nat with (offset + S i)%nat by lia. exact Hi.
Qed.

End RewriteFacts.

(** C10: the rewrite of [__vite_ssr_identity__(x.y)] into its padded form keeps
    the length of the code, and every character outside the rewritten spans
    stays at its offset. *)
Theorem unwrapIdentity_preserves_offsets (s : string) :
  String.length (Rewrite.unwrapIdentity s) = String.length s
  /\ forall i, ~ Rewrite.inSpans (Rewrite.matchSpans 0 s) i ->
       String.get i (Rewrite.unwrapIdentity s) = String.get i s.
Proof.
  destruct (RewriteFacts.unwrap_offsets (String.length s) s 0%nat (le_n _))
    as [Hl Hg].
  split; [exact Hl|]. intros i Hi. apply Hg. exact Hi.
Qed.

(** ** Name resolver *)

Module NameResolverFacts.
Import Ast NameResolver.


Example nested_template_name :
  List.map LocalCallDefinition.name
    (Classifier.walk Examples.nestedTemplate_code Examples.nestedTemplate_ast)
  = ["a${`b${x}`}c${1}"].
Proof. reflexivity. Qed.

End NameResolverFacts.



(** ** Classifier *)

Module ClassifierFacts.
Import Ast Classifier.

Lemma includes_In l x : includes l x = true <-> In x l.
Proof.
  unfold includes. rewrite existsb_exists. split.
  - intros (y & Hy & E). apply String.eqb_eq in E. now subst.
  - intros H. exists x. split; [exact H | apply String.eqb_refl].
Qed.

(** What the visitor does once the callee resolves to a keyword. *)
Lemma visit_keyword code s e callee args name :
  getName callee = Some name -> In name keywords ->
  visitCallExpression code (CallExpression s e callee args)
  = let mode := declaredMode (propertyName callee) name in
    if includes modifiers mode then None
    else
      match args with
      | [] => None
      | messageNode :: _ =>
          Some (LocalCallDefinition.mk (effectiveStart s callee) e
                  (NameResolver.getNodeAsString messageNode code)
                  (if String.eqb name "it" || String.eqb name "test"
                   then test else suite)
                  mode None)
      end.
Proof.
  intros Hn Hk. cbn [visitCallExpression]. rewrite Hn.
  assert (Hne : String.eqb name "" = false).
  { destruct Hk as [<-|[<-|[<-|[<-|[]]]]]; reflexivity. }
  apply includes_In in Hk. rewrite Hne, Hk. reflexivity.
Qed.

(** A call site is only produced on a keyword. *)
Lemma visit_Some code s e callee args d :
  visitCallExpression code (CallExpression s e callee args) = Some d ->
  exists name, getName callee = Some name /\ In name keywords.
Proof.
  cbn [visitCallExpression].
  destruct (getName callee) as [name|]; [|discriminate].
  destruct (String.eqb name ""); [discriminate|].
  destruct (includes keywords name) eqn:Hk; [|discriminate].
  intros _. exists name. split; [reflexivity|]. now apply includes_In.
Qed.

End ClassifierFacts.

(** C3, as the code has it: the shapes [kw(name, fn)], [ns.kw(name, fn)] on a
    module namespace [ns], [x.kw.m(name, fn)] for a mode [m] such as [skip] or
    [only], and the chained [x.kw.each(table)(name, fn)] yield a call site of
    the kind of the keyword [kw], with mode [run] when no property is accessed
    or when it is the keyword itself, and the name of the property
    otherwise. *)
Theorem declaration_shapes code kw ns m obj table message rest
    (s e s1 e1 s2 e2 s3 e3 s4 e4 s5 e5 : Z) :
  In kw Classifier.keywords ->
  Js.startsWith Classifier.ssrPrefix ns = true ->
  ~ In m Classifier.modifiers -> m <> "" -> m <> kw ->
  Classifier.classifiedAs code
    (Ast.CallExpression s e (Ast.Identifier s1 e1 kw) (message :: rest))
    (Classifier.kindOf kw) "run"
  /\ Classifier.classifiedAs code
       (Ast.CallExpression s e
          (Ast.MemberExpression s1 e1
             (Ast.Identifier s2 e2 ns) (Ast.Identifier s3 e3 kw))
          (message :: rest))
       (Classifier.kindOf kw) "run"
  /\ Classifier.classifiedAs code
       (Ast.CallExpression s e
          (Ast.MemberExpression s1 e1
             (Ast.MemberExpression s2 e2 obj (Ast.Identifier s3 e3 kw))
             (Ast.Identifier s4 e4 m))
          (message :: rest))
       (Classifier.kindOf kw) m
  /\ Classifier.classifiedAs code
       (Ast.CallExpression s e
          (Ast.CallExpression s1 e1
             (Ast.MemberExpression s2 e2
                (Ast.MemberExpression s3 e3 obj (Ast.Identifier s4 e4 kw))
                (Ast.Identifier s5 e5 "each"))
             table)
          (message :: rest))
       (Classifier.kindOf kw) "run"
  /\ (forall callee d,
        Classifier.visitCallExpression code
          (Ast.CallExpression s e callee (message :: rest)) = Some d ->
        exists name,
          Classifier.getName callee = Some name
          /\ In name Classifier.keywords
          /\ LocalCallDefinition.type d = Classifier.kindOf name
          /\ (Classifier.propertyName callee = None
              \/ Classifier.propertyName callee = Some name ->
              LocalCallDefinition.mode d = "run")
          /\ (forall p, Classifier.propertyName callee = Some p ->
                p <> name -> p <> "" -> LocalCallDefinition.mode d = p)).
Proof.
  intros Hkw Hns Hm Hm0 Hmk.
  assert (Hm' : Classifier.includes Classifier.modifiers m = false).
  { destruct (Classifier.includes Classifier.modifiers m) eqn:E; [|reflexivity].
    apply ClassifierFacts.includes_In in E. contradiction. }
  assert (Hmk' : String.eqb m kw = false) by now apply String.eqb_neq.
  assert (Hm0' : String.eqb m "" = false) by now apply String.eqb_neq.
  repeat split.
  - eexists. rewrite (ClassifierFacts.visit_keyword _ _ _ _ _ kw); try easy.
  - eexists.
    rewrite (ClassifierFacts.visit_keyword _ _ _ _ _ kw); try easy.
    + cbn. rewrite String.eqb_refl, orb_true_r. cbn. easy.
    + cbn [Classifier.getName Ast.name]. now rewrite Hns.
  - eexists.
    rewrite (ClassifierFacts.visit_keyword _ _ _ _ _ kw); try easy.
    cbn [Classifier.propertyName Ast.property Ast.name Classifier.declaredMode].
    rewrite Hm0', Hmk'. cbn [orb]. rewrite Hm'. easy.
  - eexists. rewrite (ClassifierFacts.visit_keyword _ _ _ _ _ kw); try easy.
  - intros callee d Hd.
    destruct (ClassifierFacts.visit_Some _ _ _ _ _ _ Hd) as (name & Hn & Hk).
    exists name. rewrite (ClassifierFacts.visit_keyword _ _ _ _ _ _ Hn Hk) in Hd.
    cbv zeta in Hd.
    destruct (Classifier.includes Classifier.modifiers
                (Classifier.declaredMode (Classifier.propertyName callee) name));
      [discriminate|].
    injection Hd as <-. cbn [LocalCallDefinition.type LocalCallDefinition.mode].
    repeat split; try assumption.
    + intros [-> | ->]; [reflexivity|]. cbn.
      now rewrite String.eqb_refl, orb_true_r.
    + intros p -> Hp Hp0. cbn.
      apply String.eqb_neq in Hp, Hp0. now rewrite Hp, Hp0.
Qed.

Lemma declaration_shapes_witness :
  Classifier.classifiedAs Examples.skipSuiteOnlyTest_code
    (Ast.CallExpression 49 93
       (Ast.MemberExpression 49 78
          (Ast.MemberExpression 49 73
             (Ast.Identifier 49 70 "__vite_ssr_import_0__")
             (Ast.Identifier 71 73 "it"))
          (Ast.Identifier 74 78 "only"))
       [Ast.Literal 79 82 (Ast.LitString "t") "'t'"])
    test "only".
Proof.
  refine (proj1 (proj2 (proj2
    (declaration_shapes Examples.skipSuiteOnlyTest_code
       "it" "__vite_ssr_import_0__" "only"
       (Ast.Identifier 49 70 "__vite_ssr_import_0__") []
       (Ast.Literal 79 82 (Ast.LitString "t") "'t'") []
       49 93 49 78 49 73 71 73 74 78 0 0 _ _ _ _ _)))).
  - simpl; tauto.
  - reflexivity.
  - simpl; intuition discriminate.
  - discriminate.
  - discriminate.
Defined.

(** The claim C3 as it is written fails on the bare shape
    [test.skip('a', fn)]: no call site is produced for it. *)
Lemma bare_member_shape_unclassified :
  Classifier.walk Examples.bareSkip_code Examples.bareSkip_ast = [].
Proof. reflexivity. Qed.

(** C7: the end offset of a call site is the end of the call; its start offset
    is the end of the callee when the callee is a call, one past the end of the
    callee when it is a tagged template, and the start of the call
    otherwise. *)
Theorem effective_offsets code s e callee args d :
  Classifier.visitCallExpression code (Ast.CallExpression s e callee args)
  = Some d ->
  LocalCallDefinition.end_ d = e
  /\ (forall cs ce c a, callee = Ast.CallExpression cs ce c a ->
        LocalCallDefinition.start d = ce)
  /\ (forall cs ce t q, callee = Ast.TaggedTemplateExpression cs ce t q ->
        LocalCallDefinition.start d = ce + 1)
  /\ ((forall cs ce c a, callee <> Ast.CallExpression cs ce c a) ->
      (forall cs ce t q, callee <> Ast.TaggedTemplateExpression cs ce t q) ->
      LocalCallDefinition.start d = s).
Proof.
  intros Hd.
  destruct (ClassifierFacts.visit_Some _ _ _ _ _ _ Hd) as (name & Hn & Hk).
  rewrite (ClassifierFacts.visit_keyword _ _ _ _ _ _ Hn Hk) in Hd.
  cbv zeta in Hd.
  destruct (Classifier.includes Classifier.modifiers _); [discriminate|].
  destruct args as [|messageNode rest]; [discriminate|].
  injection Hd as <-. cbn [LocalCallDefinition.start LocalCallDefinition.end_].
  repeat split.
  - intros cs ce c a ->. reflexivity.
  - intros cs ce t q ->. reflexivity.
  - intros Hc Ht. destruct callee; try reflexivity.
    + exfalso. eapply Ht. reflexivity.
    + exfalso. eapply Hc. reflexivity.
Qed.

Lemma effective_offsets_witness :
  Classifier.visitCallExpression Examples.chainedSuites_code
    (Ast.CallExpression 0 24
       (Ast.CallExpression 0 16 (Ast.Identifier 0 8 "describe")
          [Ast.Literal 9 12 (Ast.LitString "a") "'a'";
           Ast.Identifier 14 15 "f"])
       [Ast.Literal 17 20 (Ast.LitString "b") "'b'";
        Ast.Identifier 22 23 "g"])
  = Some (LocalCallDefinition.mk 16 24 "b" suite "run" None)
  /\ LocalCallDefinition.start
       (LocalCallDefinition.mk 16 24 "b" suite "run" None) = 16
  /\ LocalCallDefinition.end_
       (LocalCallDefinition.mk 16 24 "b" suite "run" None) = 24.
Proof.
  assert (H : Classifier.visitCallExpression Examples.chainedSuites_code
                (Ast.CallExpression 0 24
                   (Ast.CallExpression 0 16 (Ast.Identifier 0 8 "describe")
                      [Ast.Literal 9 12 (Ast.LitString "a") "'a'";
                       Ast.Identifier 14 15 "f"])
                   [Ast.Literal 17 20 (Ast.LitString "b") "'b'";
                    Ast.Identifier 22 23 "g"])
              = Some (LocalCallDefinition.mk 16 24 "b" suite "run" None))
    by reflexivity.
  destruct (effective_offsets _ _ _ _ _ _ H) as (He & Hc & _).
  split; [exact H|]. split; [eapply Hc; reflexivity | exact He].
Defined.

(** C8: a call whose base name is a keyword and whose accessed property is
    [each], [skipIf], [runIf] or [for] yields no call site. *)
Theorem modifiers_rejected code s e callee args name p :
  Classifier.getName callee = Some name ->
  In name Classifier.keywords ->
  Classifier.propertyName callee = Some p ->
  In p Classifier.modifiers ->
  Classifier.visitCallExpression code (Ast.CallExpression s e callee args)
  = None.
Proof.
  intros Hn Hk Hp Hm.
  rewrite (ClassifierFacts.visit_keyword _ _ _ _ _ _ Hn Hk), Hp.
  cbv zeta.
  assert (E : Classifier.declaredMode (Some p) name = p).
  { destruct Hm as [<-|[<-|[<-|[<-|[]]]]];
      destruct Hk as [<-|[<-|[<-|[<-|[]]]]]; reflexivity. }
  rewrite E. apply ClassifierFacts.includes_In in Hm. now rewrite Hm.
Qed.

Lemma modifiers_rejected_witness :
  Classifier.visitCallExpression "x.test.each([1])"
    (Ast.CallExpression 0 16
       (Ast.MemberExpression 0 11
          (Ast.MemberExpression 0 6
             (Ast.Identifier 0 1 "x") (Ast.Identifier 2 6 "test"))
          (Ast.Identifier 7 11 "each"))
       [Ast.Other "ArrayExpression" 12 15
          [Ast.Literal 13 14 (Ast.LitOther "1") "1"]])
  = None.
Proof.
  apply (modifiers_rejected _ _ _ _ _ "test" "each");
    try reflexivity; simpl; tauto.
Defined.

(** ** Tree builder *)

Module BuilderFacts.
Import Builder.

(** The fields of a task that the builder never changes once the task is in
    the store: everything but [tasks]. *)
Definition core (t : Task.t) : Task.t :=
  Task.mk (Task.type t) (Task.id t) (Task.name t) (Task.mode t)
    (Task.suite t) (Task.file t) [] (Task.start t) (Task.end_ t).

Lemma core_suite t t' : core t = core t' -> Task.suite t = Task.suite t'.
Proof. intros H. exact (f_equal Task.suite H). Qed.

Lemma core_mode t t' : core t = core t' -> Task.mode t = Task.mode t'.
Proof. intros H. exact (f_equal Task.mode H). Qed.

Lemma core_start t t' : core t = core t' -> Task.start t = Task.start t'.
Proof. intros H. exact (f_equal Task.start H). Qed.

Lemma core_end t t' : core t = core t' -> Task.end_ t = Task.end_ t'.
Proof. intros H. exact (f_equal Task.end_ H). Qed.

(** [h'] holds the tasks of [h], with the same fields but for [tasks]. *)
Definition extends (h h' : store) : Prop :=
  forall a t, h !! a = Some t -> exists t', h' !! a = Some t' /\ core t = core t'.

Lemma extends_refl h : extends h h.
Proof. intros a t H. eauto. Qed.

Lemma extends_trans h1 h2 h3 : extends h1 h2 -> extends h2 h3 -> extends h1 h3.
Proof.
  intros H12 H23 a t H. destruct (H12 _ _ H) as (t2 & H2 & E2).
  destruct (H23 _ _ H2) as (t3 & H3 & E3). exists t3. split; congruence.
Qed.

(** How often [c] is to occur among the children of [p]: once when the
    [suite] link of [c] points to [p]. *)
Definition childCount (h : store) (p c : addr) : nat :=
  match h !! c with
  | Some ct => if decide (Task.suite ct = Some p) then 1%nat else 0%nat
  | None => 0%nat
  end.

(** The shape of the store at every step of the builder. *)
Record wf (st : state) : Prop := {
  wf_cursor : (lastSuite st < length (heap st))%nat;
  wf_root : exists f, heap st !! 0%nat = Some f /\ Task.suite f = None;
  wf_parent : forall a t p,
      heap st !! a = Some t -> Task.suite t = Some p -> (p < a)%nat;
  wf_nonroot : forall a t,
      heap st !! a = Some t -> a <> 0%nat -> Task.suite t <> None;
  wf_children : forall p pt c,
      heap st !! p = Some pt ->
      count_occ Nat.eq_dec (Task.tasks pt) c = childCount (heap st) p c
}.

Lemma wf_initial fileId testFilepath ast :
  wf (initial (fileTask fileId testFilepath ast)).
Proof.
  split; cbn.
  - lia.
  - eexists. split; reflexivity.
  - intros [|a] t p H; [|destruct a; discriminate].
    injection H as <-. discriminate.
  - intros [|a] t H; [congruence|destruct a; discriminate].
  - intros [|p] pt c H; [|destruct p; discriminate].
    injection H as <-. cbn. unfold childCount.
    destruct c as [|c]; cbn; [reflexivity|]. destruct c; reflexivity.
Qed.

(** *** The ascent of [updateLatestSuite] *)

Lemma updateLatestSuite_step fuel h cursor index :
  updateLatestSuite (S fuel) h cursor index
  = match h !! cursor with
    | None => None
    | Some t =>
        match Task.suite t with
        | Some parent =>
            if Task.end_ t <? index
            then updateLatestSuite fuel h parent index
            else Some cursor
        | None => Some cursor
        end
    end.
Proof. reflexivity. Qed.

Lemma updateLatestSuite_enclosing h index :
  (forall a t p, h !! a = Some t -> Task.suite t = Some p -> (p < a)%nat) ->
  forall fuel cursor,
    (cursor < length h)%nat -> (cursor < fuel)%nat ->
    exists target,
      updateLatestSuite fuel h cursor index = Some target
      /\ enclosing h index cursor target
      /\ (target <= cursor)%nat.
Proof.
  intros Hp. induction fuel as [|fuel IH]; intros cursor Hc Hf; [lia|].
  destruct (lookup_lt_is_Some_2 h cursor Hc) as [t Ht].
  rewrite updateLatestSuite_step, Ht.
  destruct (Task.suite t) as [parent|] eqn:Hs.
  - destruct (Z.ltb_spec (Task.end_ t) index) as [Hlt|Hge].
    + pose proof (Hp _ _ _ Ht Hs) as Hlt'.
      destruct (IH parent) as (target & Hu & He & Hle); [lia|lia|].
      exists target. split; [exact Hu|]. split; [|lia].
      eapply enclosing_up; eauto.
    + exists cursor. split; [reflexivity|]. split; [|lia].
      eapply enclosing_here; eauto.
  - exists cursor. split; [reflexivity|]. split; [|lia].
    eapply enclosing_here; eauto.
Qed.

Lemma enclosing_target h index cursor target :
  enclosing h index cursor target ->
  exists t, h !! target = Some t
            /\ (Task.suite t = None \/ index <= Task.end_ t).
Proof. induction 1; eauto. Qed.

Lemma enclosing_unique h index cursor t1 t2 :
  enclosing h index cursor t1 -> enclosing h index cursor t2 -> t1 = t2.
Proof.
  intros H1. revert t2. induction H1 as [c t Ht Hstop|c t p tg Ht Hs Hlt H1 IH];
    intros t2 H2; inversion H2; subst; try reflexivity.
  - assert (t0 = t) by congruence. subst. destruct Hstop; [congruence|lia].
  - assert (t0 = t) by congruence. subst.
    match goal with H : _ \/ _ |- _ => destruct H; [congruence|lia] end.
  - assert (t0 = t) by congruence. subst.
    assert (parent = p) by congruence. subst. now apply IH.
Qed.

(** The tasks the ascent leaves behind end before [index]. *)
Lemma enclosing_popped h index cursor target a :
  enclosing h index cursor target -> onChain h cursor a ->
  onChain h target a
  \/ exists t, h !! a = Some t /\ Task.end_ t < index.
Proof.
  induction 1 as [c t Ht Hstop|c t p tg Ht Hs Hlt H1 IH]; intros Hc.
  - left. exact Hc.
  - inversion Hc; subst.
    + right. eauto.
    + assert (t0 = t) by congruence. subst.
      assert (parent = p) by congruence. subst. now apply IH.
Qed.

Lemma onChain_le h cursor a :
  (forall a t p, h !! a = Some t -> Task.suite t = Some p -> (p < a)%nat) ->
  onChain h cursor a -> (a <= cursor)%nat.
Proof.
  intros Hp. induction 1 as [|c t p a Ht Hs _ IH]; [lia|].
  pose proof (Hp _ _ _ Ht Hs). lia.
Qed.

Lemma onChain_extends h h' cursor a :
  extends h h' -> onChain h cursor a -> onChain h' cursor a.
Proof.
  intros He. induction 1 as [|c t p a Ht Hs _ IH]; [constructor|].
  destruct (He _ _ Ht) as (t' & Ht' & E).
  eapply onChain_up; [exact Ht'| |exact IH].
  rewrite <- (core_suite _ _ E). exact Hs.
Qed.

(** *** One step of the [forEach] *)

(** The store after a task [x] is pushed below [latest]. *)
Definition placed (h : store) (latest : addr) (pt x : Task.t) : store :=
  <[latest := Task.push (length h) pt]> h ++ [x].

Lemma placed_length h latest pt x :
  length (placed h latest pt x) = S (length h).
Proof. unfold placed. rewrite length_app, length_insert. cbn. lia. Qed.

Lemma placed_new h latest pt x :
  placed h latest pt x !! length h = Some x.
Proof.
  unfold placed. rewrite lookup_app_r; rewrite length_insert; [|lia].
  now rewrite Nat.sub_diag.
Qed.

Lemma placed_latest h latest pt x :
  h !! latest = Some pt ->
  placed h latest pt x !! latest = Some (Task.push (length h) pt).
Proof.
  intros H. pose proof (lookup_lt_Some _ _ _ H) as Hlt. unfold placed.
  rewrite lookup_app_l by (rewrite length_insert; lia).
  now apply list_lookup_insert_eq.
Qed.

Lemma placed_other h latest pt x a :
  a <> latest -> a <> length h ->
  placed h latest pt x !! a = h !! a.
Proof.
  intros H1 H2. unfold placed.
  destruct (Nat.lt_ge_cases a (length h)) as [Hlt|Hge].
  - rewrite lookup_app_l by (rewrite length_insert; lia).
    now apply list_lookup_insert_ne.
  - rewrite (lookup_ge_None_2 h) by lia.
    apply lookup_ge_None_2. rewrite length_app, length_insert. cbn. lia.
Qed.

(** A lookup in the new store, by cases. *)
Lemma placed_lookup h latest pt x a t :
  h !! latest = Some pt ->
  placed h latest pt x !! a = Some t ->
  (a = length h /\ t = x)
  \/ ((a < length h)%nat /\ exists t0, h !! a = Some t0 /\ core t0 = core t
        /\ (a <> latest -> t0 = t)
        /\ (a = latest -> t = Task.push (length h) pt)).
Proof.
  intros Hl Ha.
  destruct (decide (a = length h)) as [->|Hn].
  - left. rewrite placed_new in Ha. split; congruence.
  - right. destruct (decide (a = latest)) as [->|Hn'].
    + rewrite (placed_latest _ _ _ _ Hl) in Ha. injection Ha as <-.
      split; [eapply lookup_lt_Some; eauto|].
      exists pt. repeat split; try easy.
    + rewrite placed_other in Ha by assumption.
      split; [eapply lookup_lt_Some; eauto|].
      exists t. repeat split; try easy.
Qed.

Lemma placed_extends h latest pt x :
  h !! latest = Some pt -> extends h (placed h latest pt x).
Proof.
  intros Hl a t Ha. pose proof (lookup_lt_Some _ _ _ Ha) as Hlt.
  destruct (decide (a = latest)) as [->|Hn].
  - rewrite (placed_latest _ _ _ _ Hl). eexists. split; [reflexivity|].
    assert (t = pt) by congruence. now subst.
  - rewrite placed_other by lia. eauto.
Qed.

(** What [place] does on a well-shaped state. *)
Lemma place_spec st d :
  wf st ->
  exists target pt,
    enclosing (heap st) (LocalCallDefinition.start d) (lastSuite st) target
    /\ heap st !! target = Some pt
    /\ (target <= lastSuite st)%nat
    /\ place st d
       = Some (mkState
                 (placed (heap st) target pt
                    (materialize d (resolveMode pt d) target))
                 match LocalCallDefinition.type d with
                 | suite => length (heap st)
                 | test => target
                 end,
               assign d (length (heap st))).
Proof.
  intros Hwf.
  destruct (updateLatestSuite_enclosing (heap st) (LocalCallDefinition.start d)
              (wf_parent _ Hwf) (length (heap st)) (lastSuite st))
    as (target & Hu & He & Hle); [apply Hwf|apply Hwf|].
  destruct (enclosing_target _ _ _ _ He) as (pt & Hpt & _).
  exists target, pt. repeat split; try assumption.
  unfold place. rewrite Hu, Hpt. reflexivity.
Qed.

Lemma place_wf st d st' d' :
  wf st -> place st d = Some (st', d') -> wf st'.
Proof.
  intros Hwf Hp.
  destruct (place_spec st d Hwf) as (target & pt & He & Hpt & Hle & Hpl).
  rewrite Hpl in Hp. injection Hp as <- <-.
  pose proof (lookup_lt_Some _ _ _ Hpt) as Htl.
  set (x := materialize d (resolveMode pt d) target).
  split; cbn [heap lastSuite].
  - rewrite placed_length. destruct (LocalCallDefinition.type d); lia.
  - destruct (wf_root _ Hwf) as (f & Hf & Hs).
    destruct (placed_extends _ _ _ x Hpt _ _ Hf) as (f' & Hf' & E).
    exists f'. split; [exact Hf'|]. rewrite <- (core_suite _ _ E). exact Hs.
  - intros a t p Ha Hs.
    destruct (placed_lookup _ _ _ _ _ _ Hpt Ha)
      as [[-> ->]|(Hlt & t0 & Ht0 & E & _)].
    + cbn in Hs. injection Hs as <-. exact Htl.
    + apply (wf_parent _ Hwf a t0 p Ht0). rewrite (core_suite _ _ E). exact Hs.
  - intros a t Ha Hn.
    destruct (placed_lookup _ _ _ _ _ _ Hpt Ha)
      as [[-> ->]|(Hlt & t0 & Ht0 & E & _)].
    + discriminate.
    + rewrite <- (core_suite _ _ E). now apply (wf_nonroot _ Hwf a t0).
  - intros p pt' c Hp.
    assert (Hcount : forall q, q <> target \/ c <> length (heap st) ->
              (q < length (heap st))%nat ->
              childCount (placed (heap st) target pt x) q c
              = childCount (heap st) q c).
    { intros q Hq Hql. unfold childCount.
      destruct (decide (c = length (heap st))) as [->|Hc].
      - rewrite placed_new, (lookup_ge_None_2 (heap st)) by lia.
        cbn. destruct Hq as [Hq|Hq]; [|congruence].
        destruct (decide (Some target = Some q)); [congruence|reflexivity].
      - destruct (decide (c = target)) as [->|Hc'].
        + rewrite (placed_latest _ _ _ _ Hpt), Hpt. reflexivity.
        + now rewrite placed_other. }
    destruct (placed_lookup _ _ _ _ _ _ Hpt Hp)
      as [[-> ->]|(Hlt & t0 & Ht0 & E & Hsame & Hpush)].
    + cbn. unfold childCount.
      destruct (placed (heap st) target pt x !! c) as [ct|] eqn:Hc;
        [|reflexivity].
      destruct (decide (Task.suite ct = Some (length (heap st))))
        as [Hs|]; [|reflexivity].
      exfalso.
      destruct (placed_lookup _ _ _ _ _ _ Hpt Hc)
        as [[-> ->]|(Hlt & t0 & Ht0 & E & _)].
      * cbn in Hs. injection Hs as Hs. lia.
      * rewrite <- (core_suite _ _ E) in Hs.
        pose proof (wf_parent _ Hwf _ _ _ Ht0 Hs). lia.
    + destruct (decide (p = target)) as [->|Hn].
      * rewrite (Hpush eq_refl). cbn [Task.push Task.tasks].
        rewrite count_occ_app, (wf_children _ Hwf _ _ c Hpt). cbn.
        destruct (Nat.eq_dec (length (heap st)) c) as [<-|Hc].
        -- unfold childCount. rewrite placed_new.
           rewrite (lookup_ge_None_2 (heap st)) by lia. cbn.
           destruct (decide (Some target = Some target)); [reflexivity|congruence].
        -- rewrite Hcount; [lia|right; congruence|lia].
      * rewrite <- (Hsame Hn), (wf_children _ Hwf _ _ c Ht0).
        symmetry. apply Hcount; [now left|lia].
Qed.

(** *** The whole [forEach] *)

(** The loop never gets stuck, and every definition leaves a task at the next
    free address, below the suite that encloses it in the state the loop had
    reached. *)
Lemma forEach_trace ds :
  forall st, wf st ->
  exists st' ds',
    forEach st ds = Some (st', ds')
    /\ wf st'
    /\ extends (heap st) (heap st')
    /\ length (heap st') = (length (heap st) + length ds)%nat
    /\ forall i d, ds !! i = Some d ->
         exists sti dsi target pt t,
           forEach st (take i ds) = Some (sti, dsi)
           /\ wf sti
           /\ length (heap sti) = (length (heap st) + i)%nat
           /\ enclosing (heap sti) (LocalCallDefinition.start d)
                (lastSuite sti) target
           /\ heap sti !! target = Some pt
           /\ extends (heap sti) (heap st')
           /\ heap st' !! (length (heap st) + i)%nat = Some t
           /\ core t = core (materialize d (resolveMode pt d) target)
           /\ ds' !! i = Some (assign d (length (heap st) + i)).
Proof.
  induction ds as [|d0 rest IH]; intros st Hwf.
  - exists st, [].
    split_and!; first [easy | apply extends_refl | cbn; lia].
  - destruct (place_spec st d0 Hwf) as (target & pt & He & Hpt & Hle & Hpl).
    pose proof (place_wf _ _ _ _ Hwf Hpl) as Hwf1.
    set (x := materialize d0 (resolveMode pt d0) target) in *.
    set (st1 := mkState (placed (heap st) target pt x)
                  match LocalCallDefinition.type d0 with
                  | suite => length (heap st)
                  | test => target
                  end) in *.
    destruct (IH st1 Hwf1) as (st' & ds' & Hf & Hwf' & Hext & Hlen & Hall).
    assert (Hl1 : length (heap st1) = S (length (heap st)))
      by apply placed_length.
    assert (Hext0 : extends (heap st) (heap st1))
      by (apply placed_extends; exact Hpt).
    exists st', (assign d0 (length (heap st)) :: ds').
    split; [cbn [forEach]; now rewrite Hpl, Hf|].
    split; [exact Hwf'|].
    split; [eapply extends_trans; eauto|].
    split; [rewrite Hlen, Hl1; cbn; lia|].
    intros [|i] d Hd.
    + injection Hd as <-.
      destruct (Hext (length (heap st)) x) as (t & Ht & E);
        [apply placed_new|].
      exists st, [], target, pt, t.
      rewrite Nat.add_0_r. split_and!; try easy.
      eapply extends_trans; eauto.
    + cbn in Hd.
      destruct (Hall i d Hd)
        as (sti & dsi & tg & pti & t & Hfi & Hwfi & Hli & Hei & Hpti & Hxi
            & Ht & E & Hds).
      exists sti, (assign d0 (length (heap st)) :: dsi), tg, pti, t.
      rewrite Hl1 in *.
      replace (length (heap st) + S i)%nat with (S (length (heap st)) + i)%nat
        by lia.
      split_and!; try easy.
      cbn [take forEach]. now rewrite Hpl, Hfi.
Qed.

(** The mode of every task the loop builds. *)
Lemma forEach_modes fileId testFilepath ast ds :
  exists st ds',
    forEach (initial (fileTask fileId testFilepath ast)) ds = Some (st, ds')
    /\ forall i d, ds !! i = Some d ->
       exists sti dsi t p pt,
         forEach (initial (fileTask fileId testFilepath ast)) (take i ds)
         = Some (sti, dsi)
         /\ enclosing (heap sti) (LocalCallDefinition.start d) (lastSuite sti) p
         /\ heap st !! S i = Some t
         /\ Task.suite t = Some p
         /\ heap st !! p = Some pt
         /\ (Task.mode pt <> "run" -> Task.mode t = Task.mode pt)
         /\ (Task.mode pt = "run" ->
             Task.mode t = LocalCallDefinition.mode d).
Proof.
  destruct (forEach_trace ds _ (wf_initial fileId testFilepath ast))
    as (st & ds' & Hf & Hwf & _ & _ & Hall).
  exists st, ds'. split; [exact Hf|]. intros i d Hd.
  destruct (Hall i d Hd)
    as (sti & dsi & p & pti & t & Hfi & _ & _ & He & Hpti & Hx & Ht & E & _).
  destruct (Hx _ _ Hpti) as (pt & Hpt & Ep).
  exists sti, dsi, t, p, pt.
  pose proof (core_mode _ _ E) as Hm.
  pose proof (core_suite _ _ E) as Hs.
  pose proof (core_mode _ _ Ep) as Hmp.
  cbn in Hm, Hs, Ht. unfold resolveMode in Hm. rewrite Hmp in Hm.
  split_and!; try assumption.
  - intros Hrun. apply String.eqb_neq in Hrun. now rewrite Hrun in Hm.
  - intros Hrun. apply String.eqb_eq in Hrun. now rewrite Hrun in Hm.
Qed.

End BuilderFacts.

(** C1: the task built for a call site takes the mode of the suite that
    encloses it when that mode is not [run], and the declared mode of the call
    site otherwise; a test declared [.only] in a suite declared [.skip] gets
    the mode [skip]. *)
Theorem mode_resolution fileId testFilepath ast ds :
  (exists st ds',
     Builder.forEach
       (Builder.initial (Builder.fileTask fileId testFilepath ast)) ds
     = Some (st, ds')
     /\ forall i d, ds !! i = Some d ->
        exists sti dsi t p pt,
          Builder.forEach
            (Builder.initial (Builder.fileTask fileId testFilepath ast))
            (take i ds)
          = Some (sti, dsi)
          /\ Builder.enclosing (Builder.heap sti)
               (LocalCallDefinition.start d) (Builder.lastSuite sti) p
          /\ Builder.heap st !! S i = Some t
          /\ Task.suite t = Some p
          /\ Builder.heap st !! p = Some pt
          /\ (Task.mode pt <> "run" -> Task.mode t = Task.mode pt)
          /\ (Task.mode pt = "run" ->
              Task.mode t = LocalCallDefinition.mode d))
  /\ exists info t,
       Examples.collect Examples.skipSuiteOnlyTest_code
         Examples.skipSuiteOnlyTest_ast = Some info
       /\ List.map LocalCallDefinition.mode (Collect.definitions info)
          = ["skip"; "only"]
       /\ Collect.heap info !! 2%nat = Some t
       /\ Task.type t = test
       /\ Task.mode t = "skip".
Proof.
  split.
  - apply BuilderFacts.forEach_modes.
  - vm_compute. eexists _, _. split_and!; reflexivity.
Qed.

(** The claim C2 as it is written fails: in
    [describe.only('s', () => { it.skip('t', () => {}) })] the suite has the
    mode [only] and the test, declared [skip], does not keep its mode. *)
Lemma only_suite_overrides_declared_mode :
  exists info d t pt,
    Examples.collect Examples.onlySuiteSkipTest_code
      Examples.onlySuiteSkipTest_ast = Some info
    /\ Collect.definitions info !! 1%nat = Some d
    /\ LocalCallDefinition.task d = Some 2%nat
    /\ Collect.heap info !! 2%nat = Some t
    /\ Task.suite t = Some 1%nat
    /\ Collect.heap info !! 1%nat = Some pt
    /\ Task.mode pt = "only"
    /\ LocalCallDefinition.mode d = "skip"
    /\ Task.mode t <> LocalCallDefinition.mode d.
Proof.
  vm_compute. eexists _, _, _, _. split_and!; try reflexivity. discriminate.
Qed.

(** C2, as the code has it: a task whose enclosing suite has the mode [only]
    gets the mode [only], whatever mode its call site declares; [only] is
    forced on descendants like [skip] and [todo]. *)
Theorem only_forces_descendants fileId testFilepath ast ds st ds' i d t p pt :
  Builder.forEach
    (Builder.initial (Builder.fileTask fileId testFilepath ast)) ds
  = Some (st, ds') ->
  ds !! i = Some d ->
  Builder.heap st !! S i = Some t ->
  Task.suite t = Some p ->
  Builder.heap st !! p = Some pt ->
  Task.mode pt = "only" ->
  Task.mode t = "only".
Proof.
  intros Hf Hd Ht Hs Hpt Hm.
  destruct (BuilderFacts.forEach_modes fileId testFilepath ast ds)
    as (st0 & ds0 & Hf0 & Hall).
  rewrite Hf in Hf0. injection Hf0 as <- <-.
  destruct (Hall i d Hd)
    as (_ & _ & t' & p' & pt' & _ & _ & Ht' & Hs' & Hpt' & Hforce & _).
  assert (t' = t) by congruence. subst t'.
  assert (p' = p) by congruence. subst p'.
  assert (pt' = pt) by congruence. subst pt'.
  rewrite Hforce; [exact Hm|]. rewrite Hm. discriminate.
Qed.

Lemma only_forces_descendants_witness :
  exists info t,
    Examples.collect Examples.onlySuiteSkipTest_code
      Examples.onlySuiteSkipTest_ast = Some info
    /\ Collect.heap info !! 2%nat = Some t
    /\ Task.mode t = "only".
Proof.
  destruct (Examples.collect Examples.onlySuiteSkipTest_code
              Examples.onlySuiteSkipTest_ast) as [info|] eqn:E;
    [|discriminate E].
  vm_compute in E. injection E as <-.
  eexists _, _. split; [reflexivity|]. split; [reflexivity|].
  refine (only_forces_descendants "hash" "a.test.ts"
            Examples.onlySuiteSkipTest_ast
            (Builder.sort
               (Classifier.walk Examples.onlySuiteSkipTest_code
                  Examples.onlySuiteSkipTest_ast))
            _ _ 1%nat _ _ 1%nat _ _ _ _ _ _ _);
    vm_compute; reflexivity.
Defined.

(** C4: every call site given to the builder is materialized at the next free
    address and pushed on the children of exactly one suite, the one reached
    from the cursor by ascending [suite] links while the end offset is less
    than the start of the call site; none is dropped. *)
Theorem call_sites_attached fileId testFilepath ast ds :
  exists st ds',
    Builder.forEach
      (Builder.initial (Builder.fileTask fileId testFilepath ast)) ds
    = Some (st, ds')
    /\ length (Builder.heap st) = S (length ds)
    /\ length ds' = length ds
    /\ forall i d, ds !! i = Some d ->
       exists sti dsi target t,
         Builder.forEach
           (Builder.initial (Builder.fileTask fileId testFilepath ast))
           (take i ds)
         = Some (sti, dsi)
         /\ Builder.enclosing (Builder.heap sti)
              (LocalCallDefinition.start d) (Builder.lastSuite sti) target
         /\ ds' !! i = Some (Builder.assign d (S i))
         /\ Builder.heap st !! S i = Some t
         /\ Task.suite t = Some target
         /\ Task.type t = LocalCallDefinition.type d
         /\ Task.name t = LocalCallDefinition.name d
         /\ Task.start t = LocalCallDefinition.start d
         /\ Task.end_ t = LocalCallDefinition.end_ d
         /\ forall p pt, Builder.heap st !! p = Some pt ->
              count_occ Nat.eq_dec (Task.tasks pt) (S i)
              = if decide (p = target) then 1%nat else 0%nat.
Proof.
  destruct (BuilderFacts.forEach_trace ds _
              (BuilderFacts.wf_initial fileId testFilepath ast))
    as (st & ds' & Hf & Hwf & _ & Hlen & Hall).
  exists st, ds'. split; [exact Hf|]. split; [exact Hlen|].
  split.
  { clear -Hf. revert Hf. generalize (Builder.initial
      (Builder.fileTask fileId testFilepath ast)) as s0. revert st ds'.
    induction ds as [|d0 rest IH]; intros st ds' s0; cbn [Builder.forEach].
    - intros [= <- <-]. reflexivity.
    - destruct (Builder.place s0 d0) as [[s1 d1]|]; [|discriminate].
      destruct (Builder.forEach s1 rest) as [[s2 r2]|] eqn:E; [|discriminate].
      intros [= <- <-]. cbn. f_equal. eapply IH. exact E. }
  intros i d Hd.
  destruct (Hall i d Hd)
    as (sti & dsi & target & pti & t & Hfi & _ & _ & He & _ & _ & Ht & E & Hds).
  exists sti, dsi, target, t. cbn in Ht, Hds.
  split_and!; try assumption;
    try exact (f_equal Task.suite E); try exact (f_equal Task.type E);
    try exact (f_equal Task.name E); try exact (f_equal Task.start E);
    try exact (f_equal Task.end_ E).
  intros p pt Hp.
  rewrite (BuilderFacts.wf_children _ Hwf _ _ (S i) Hp).
  unfold BuilderFacts.childCount. rewrite Ht.
  pose proof (f_equal Task.suite E) as Hs. cbn in Hs. rewrite Hs.
  destruct (decide (Some target = Some p)), (decide (p = target));
    congruence.
Qed.

(** ** From the syntax tree to the tasks *)

Module CollectFacts.
Import Ast.

(** Every call site comes from the visitor, on a call expression of the
    tree. *)
Lemma walk_calls code n d :
  In d (Classifier.walk code n) ->
  exists c, In c (calls n) /\ Classifier.visitCallExpression code c = Some d.
Proof.
  revert d.
  assert (Hlist : forall l,
            Forall (fun n => forall d, In d (Classifier.walk code n) ->
                      exists c, In c (calls n)
                        /\ Classifier.visitCallExpression code c = Some d) l ->
            forall d, In d (flat_map (Classifier.walk code) l) ->
              exists c, In c (flat_map calls l)
                /\ Classifier.visitCallExpression code c = Some d).
  { intros l Hl d Hd. apply in_flat_map in Hd. destruct Hd as (x & Hx & Hd).
    rewrite List.Forall_forall in Hl.
    destruct (Hl x Hx d Hd) as (c & Hc & Hv).
    exists c. split; [|exact Hv]. apply in_flat_map. eauto. }
  induction n as [ | | | s e qs es IH | s e t q IHt IHq
                 | s e c args IHc IHa | s e o p IHo IHp | | k s e cs IH ]
    using node_induction; intros d Hd;
    cbn [Classifier.walk calls] in *; try contradiction.
  - now apply Hlist.
  - apply in_app_or in Hd. destruct Hd as [Hd|Hd];
      [destruct (IHt d Hd) as (x & Hx & Hv)
      |destruct (IHq d Hd) as (x & Hx & Hv)];
      exists x; (split; [apply in_or_app; auto|exact Hv]).
  - apply in_app_or in Hd. destruct Hd as [Hd|Hd].
    { destruct (IHc d Hd) as (x & Hx & Hv).
      exists x. split; [apply in_or_app; auto|exact Hv]. }
    apply in_app_or in Hd. destruct Hd as [Hd|Hd].
    { destruct (Hlist args IHa d Hd) as (x & Hx & Hv).
      exists x. split; [|exact Hv].
      apply in_or_app; right; apply in_or_app; auto. }
    exists (CallExpression s e c args). split.
    { apply in_or_app; right; apply in_or_app; right; now left. }
    destruct (Classifier.visitCallExpression code (CallExpression s e c args))
      as [d'|]; [|contradiction].
    destruct Hd as [->|[]]. reflexivity.
  - apply in_app_or in Hd. destruct Hd as [Hd|Hd];
      [destruct (IHo d Hd) as (x & Hx & Hv)
      |destruct (IHp d Hd) as (x & Hx & Hv)];
      exists x; (split; [apply in_or_app; auto|exact Hv]).
  - now apply Hlist.
Qed.

(** The visitor only yields a call site on a call with a first argument. *)
Lemma visit_arguments code c d :
  Classifier.visitCallExpression code c = Some d -> arguments c <> [].
Proof.
  destruct c; try discriminate. intros Hd.
  destruct (ClassifierFacts.visit_Some _ _ _ _ _ _ Hd) as (name & Hn & Hk).
  rewrite (ClassifierFacts.visit_keyword _ _ _ _ _ _ Hn Hk) in Hd.
  cbv zeta in Hd.
  destruct (Classifier.includes Classifier.modifiers
              (Classifier.declaredMode (Classifier.propertyName c) name));
    [discriminate|].
  cbn. destruct arguments0; [discriminate|discriminate].
Qed.

Lemma insert_In d l x : In x (Builder.insert d l) <-> x = d \/ In x l.
Proof.
  induction l as [|y l IH]; cbn.
  - intuition.
  - destruct (LocalCallDefinition.start y <=? LocalCallDefinition.start d);
      cbn; rewrite ?IH; intuition.
Qed.

(** Sorting keeps the call sites. *)
Lemma sort_In l x : In x (Builder.sort l) <-> In x l.
Proof.
  unfold Builder.sort.
  assert (H : forall acc, In x (fold_left (fun acc d => Builder.insert d acc) l acc)
                          <-> In x acc \/ In x l).
  { induction l as [|d l IH]; intros acc; cbn; [intuition|].
    rewrite IH, insert_In. intuition. }
  rewrite H. cbn. intuition.
Qed.

End CollectFacts.

(** C9: a call with no argument yields no call site; [collectTests] always
    returns, and every task of its tree other than the file was materialized
    from the call site of a call expression that has a first argument. *)
Theorem nameless_calls_discarded :
  (forall code s e callee,
     Classifier.visitCallExpression code (Ast.CallExpression s e callee [])
     = None)
  /\ forall parseAst fileId testFilepath requestCode,
       exists info,
         Collect.collectTests parseAst fileId testFilepath requestCode
         = Some info
         /\ forall a t, a <> 0%nat -> Collect.heap info !! a = Some t ->
            exists c d,
              In c (Ast.calls (parseAst (Rewrite.unwrapIdentity requestCode)))
              /\ Ast.arguments c <> []
              /\ Classifier.visitCallExpression
                   (Rewrite.unwrapIdentity requestCode) c = Some d
              /\ Task.type t = LocalCallDefinition.type d
              /\ Task.name t = LocalCallDefinition.name d
              /\ Task.start t = LocalCallDefinition.start d
              /\ Task.end_ t = LocalCallDefinition.end_ d.
Proof.
  split.
  - intros code s e callee. cbn [Classifier.visitCallExpression].
    destruct (Classifier.getName callee) as [name|]; [|reflexivity].
    destruct (String.eqb name ""); [reflexivity|].
    destruct (negb (Classifier.includes Classifier.keywords name));
      [reflexivity|].
    destruct (Classifier.includes Classifier.modifiers _); reflexivity.
  - intros parseAst fileId testFilepath requestCode.
    unfold Collect.collectTests.
    set (code := Rewrite.unwrapIdentity requestCode).
    set (ast := parseAst code).
    set (ds := Builder.sort (Classifier.walk code ast)).
    destruct (BuilderFacts.forEach_trace ds _
                (BuilderFacts.wf_initial fileId testFilepath ast))
      as (st & ds' & Hf & Hwf & _ & Hlen & Hall).
    rewrite Hf. eexists. split; [reflexivity|].
    cbn [Collect.heap]. intros a t Ha Ht.
    pose proof (lookup_lt_Some _ _ _ Ht) as Hlt. rewrite Hlen in Hlt.
    cbn in Hlt. destruct a as [|i]; [congruence|].
    destruct (lookup_lt_is_Some_2 ds i) as [d Hd]; [lia|].
    destruct (Hall i d Hd)
      as (_ & _ & target & pti & t' & _ & _ & _ & _ & _ & _ & Ht' & E & _).
    cbn in Ht'. assert (t' = t) by congruence. subst t'.
    assert (Hin : In d (Classifier.walk code ast)).
    { apply CollectFacts.sort_In. apply list_elem_of_In.
      eapply list_elem_of_lookup_2. exact Hd. }
    destruct (CollectFacts.walk_calls _ _ _ Hin) as (c & Hc & Hv).
    exists c, d. split_and!; try assumption.
    + eapply CollectFacts.visit_arguments. exact Hv.
    + exact (f_equal Task.type E).
    + exact (f_equal Task.name E).
    + exact (f_equal Task.start E).
    + exact (f_equal Task.end_ E).
Qed.

(** ** Ranges in the tree *)

Module RangeFacts.
Import Builder BuilderFacts.

(** What the loop keeps true of the ranges, [todo] being the definitions
    still to come. *)
Record ranges (st : state) (todo : list LocalCallDefinition.t) : Prop := {
  r_contained : contained (heap st);
  r_apart : siblingsApart (heap st);
  r_open : forall a t,
      heap st !! a = Some t -> a <> 0%nat ->
      onChain (heap st) (lastSuite st) a
      \/ forall d, In d todo -> Task.end_ t < LocalCallDefinition.start d;
  r_nested : forall a t,
      heap st !! a = Some t -> a <> 0%nat ->
      forall d, In d todo ->
        Task.end_ t < LocalCallDefinition.start d
        \/ (Task.start t < LocalCallDefinition.start d
            /\ LocalCallDefinition.end_ d < Task.end_ t);
  r_root : exists f,
      heap st !! 0%nat = Some f
      /\ forall d, In d todo ->
           Task.start f <= LocalCallDefinition.start d
           /\ LocalCallDefinition.end_ d <= Task.end_ f
}.

Lemma ranges_initial fileId testFilepath ast ds :
  within (Ast.start ast) (Ast.end_ ast) ds ->
  ranges (initial (fileTask fileId testFilepath ast)) ds.
Proof.
  intros Hw. split; cbn.
  - intros [|a] t p pt Ha Hs; [|destruct a; discriminate].
    injection Ha as <-. discriminate.
  - intros a [|b] ta tb p Hab Ha Hb; [lia|destruct b; discriminate].
  - intros [|a] t Ha Hn; [congruence|destruct a; discriminate].
  - intros [|a] t Ha Hn; [congruence|destruct a; discriminate].
  - eexists. split; [reflexivity|]. cbn.
    unfold within in Hw. rewrite List.Forall_forall in Hw. exact Hw.
Qed.

Lemma place_ranges st d todo st' d' :
  wf st -> ranges st (d :: todo) -> laminar (d :: todo) ->
  place st d = Some (st', d') ->
  ranges st' todo.
Proof.
  intros Hwf Hr [Hhead _] Hp.
  rewrite List.Forall_forall in Hhead.
  destruct (place_spec st d Hwf) as (target & pt & He & Hpt & Hle & Hpl).
  rewrite Hpl in Hp. injection Hp as <- <-.
  set (x := materialize d (resolveMode pt d) target).
  pose proof (lookup_lt_Some _ _ _ Hpt) as Htl.
  pose proof (placed_extends (heap st) target pt x Hpt) as Hext.
  destruct (enclosing_target _ _ _ _ He) as (pt0 & Hpt0 & Hstop).
  assert (pt0 = pt) by congruence. subst pt0.
  assert (Hsorted : forall d', In d' todo ->
            LocalCallDefinition.start d <= LocalCallDefinition.start d').
  { intros d' Hd'. destruct (Hhead d' Hd') as (Hv & [Hl|(_ & Hl & _)]); lia. }
  (* the new task lies in the suite it is pushed on *)
  assert (Hin : Task.start pt <= LocalCallDefinition.start d
                /\ LocalCallDefinition.end_ d <= Task.end_ pt
                /\ (target <> 0%nat ->
                    Task.start pt < LocalCallDefinition.start d
                    /\ LocalCallDefinition.end_ d < Task.end_ pt)).
  { destruct (decide (target = 0%nat)) as [->|Hn].
    - destruct (r_root _ _ Hr) as (f & Hf & Hall).
      assert (f = pt) by congruence. subst f.
      destruct (Hall d (or_introl eq_refl)). split_and!; lia.
    - pose proof (wf_nonroot _ Hwf _ _ Hpt Hn) as Hs.
      destruct Hstop as [Hs'|Hge]; [congruence|].
      destruct (r_nested _ _ Hr _ _ Hpt Hn d (or_introl eq_refl)); lia. }
  (* the tasks already below that suite end before the new one starts *)
  assert (Hbefore : forall a ta, (heap st) !! a = Some ta ->
            Task.suite ta = Some target ->
            Task.end_ ta < LocalCallDefinition.start d).
  { intros a ta Ha Hs.
    assert (Hn : a <> 0%nat).
    { intros ->. destruct (wf_root _ Hwf) as (f & Hf & Hf').
      congruence. }
    destruct (r_open _ _ Hr _ _ Ha Hn) as [Hc|Hc].
    - destruct (enclosing_popped _ _ _ _ _ He Hc) as [Hc'|(t & Ht & Hlt)].
      + pose proof (onChain_le _ _ _ (wf_parent _ Hwf) Hc').
        pose proof (wf_parent _ Hwf _ _ _ Ha Hs). lia.
      + assert (t = ta) by congruence. now subst.
    - apply Hc. now left. }
  split; cbn [heap lastSuite].
  - intros a t p ptt Ha Hs Hp.
    destruct (placed_lookup _ _ _ _ _ _ Hpt Ha)
      as [[-> ->]|(Hlt & t0 & Ht0 & E & _)].
    + cbn in Hs. injection Hs as <-.
      rewrite (placed_latest _ _ _ _ Hpt) in Hp. injection Hp as <-.
      exact Hin.
    + rewrite <- (core_suite _ _ E) in Hs.
      pose proof (wf_parent _ Hwf _ _ _ Ht0 Hs) as Hpa.
      destruct (placed_lookup _ _ _ _ _ _ Hpt Hp)
        as [[-> ->]|(_ & p0 & Hp0 & Ep & _)]; [lia|].
      rewrite <- (core_start _ _ E), <- (core_end _ _ E),
        <- (core_start _ _ Ep), <- (core_end _ _ Ep).
      exact (r_contained _ _ Hr _ _ _ _ Ht0 Hs Hp0).
  - intros a b ta tb p Hab Ha Hb Hsa Hsb.
    pose proof (lookup_lt_Some _ _ _ Hb) as Hbl.
    rewrite placed_length in Hbl.
    destruct (placed_lookup _ _ _ _ _ _ Hpt Ha)
      as [[-> ->]|(Hlt & ta0 & Hta0 & Ea & _)]; [lia|].
    rewrite <- (core_suite _ _ Ea) in Hsa. rewrite <- (core_end _ _ Ea).
    destruct (placed_lookup _ _ _ _ _ _ Hpt Hb)
      as [[-> ->]|(Hltb & tb0 & Htb0 & Eb & _)].
    + cbn in Hsb. injection Hsb as <-. cbn. eapply Hbefore; eauto.
    + rewrite <- (core_suite _ _ Eb) in Hsb. rewrite <- (core_start _ _ Eb).
      exact (r_apart _ _ Hr _ _ _ _ _ Hab Hta0 Htb0 Hsa Hsb).
  - intros a t Ha Hn.
    assert (Hup : onChain (placed (heap st) target pt x) target a ->
              onChain (placed (heap st) target pt x)
                match LocalCallDefinition.type d with
                | suite => length (heap st)
                | test => target
                end a).
    { intros Hc. destruct (LocalCallDefinition.type d); [|exact Hc].
      eapply onChain_up; [apply placed_new|reflexivity|exact Hc]. }
    destruct (placed_lookup _ _ _ _ _ _ Hpt Ha)
      as [[-> ->]|(Hlt & t0 & Ht0 & E & _)].
    + destruct (LocalCallDefinition.type d) eqn:Hty.
      * left. constructor.
      * right. intros d' Hd'. cbn.
        destruct (Hhead d' Hd') as (_ & [Hl|(Hs & _)]); [lia|congruence].
    + rewrite <- (core_end _ _ E).
      destruct (r_open _ _ Hr _ _ Ht0 Hn) as [Hc|Hc].
      * destruct (enclosing_popped _ _ _ _ _ He Hc) as [Hc'|(t1 & Ht1 & Hl)].
        -- left. apply Hup. eapply onChain_extends; eauto.
        -- right. intros d' Hd'. assert (t1 = t0) by congruence. subst t1.
           pose proof (Hsorted d' Hd'). lia.
      * right. intros d' Hd'. apply Hc. now right.
  - intros a t Ha Hn d' Hd'.
    destruct (placed_lookup _ _ _ _ _ _ Hpt Ha)
      as [[-> ->]|(Hlt & t0 & Ht0 & E & _)].
    + cbn. destruct (Hhead d' Hd') as (_ & [Hl|(_ & Hl & Hl')]); lia.
    + rewrite <- (core_start _ _ E), <- (core_end _ _ E).
      apply (r_nested _ _ Hr _ _ Ht0 Hn). now right.
  - destruct (r_root _ _ Hr) as (f & Hf & Hall).
    destruct (Hext _ _ Hf) as (f' & Hf' & E).
    exists f'. split; [exact Hf'|]. intros d' Hd'.
    rewrite <- (core_start _ _ E), <- (core_end _ _ E).
    apply Hall. now right.
Qed.

Lemma forEach_ranges ds :
  forall st st' ds',
    wf st -> ranges st ds -> laminar ds ->
    forEach st ds = Some (st', ds') ->
    contained (heap st') /\ siblingsApart (heap st').
Proof.
  induction ds as [|d rest IH]; intros st st' ds' Hwf Hr Hl Hf.
  - injection Hf as <- <-. split; apply Hr.
  - cbn [forEach] in Hf.
    destruct (place st d) as [[st1 d1]|] eqn:Hp; [|discriminate].
    destruct (forEach st1 rest) as [[st2 r2]|] eqn:Hf2; [|discriminate].
    injection Hf as <- <-.
    eapply (IH st1); [eapply place_wf; eauto|eapply place_ranges; eauto
                     |apply Hl|exact Hf2].
Qed.

End RangeFacts.

(** The claim C5 as it is written fails on well-formed trees.  In
    [it('a', () => { it('b', () => {}) })] both tests hang from the file:
    the first one has the range of the file, and the two overlap.  In
    [describe('a', f)('b', g)] the second suite hangs from the first one and
    lies outside its range. *)
Lemma ranges_of_nested_tests_overlap :
  (Ast.wellFormed Examples.testInTest_ast = true
   /\ exists info,
        Examples.collect Examples.testInTest_code Examples.testInTest_ast
        = Some info
        /\ ~ Builder.strictlyContained (Collect.heap info)
        /\ ~ Builder.siblingsApart (Collect.heap info))
  /\ (Ast.wellFormed Examples.chainedSuites_ast = true
      /\ exists info,
           Examples.collect Examples.chainedSuites_code
             Examples.chainedSuites_ast = Some info
           /\ ~ Builder.contained (Collect.heap info)).
Proof.
  split; (split; [reflexivity|]); eexists; (split; [reflexivity|]).
  - split.
    + intros H.
      specialize (H 1%nat _ 0%nat _ eq_refl eq_refl eq_refl). cbn in H. lia.
    + intros H.
      specialize (H 1%nat 2%nat _ _ 0%nat (le_n _) eq_refl eq_refl
                    eq_refl eq_refl).
      cbn in H. lia.
  - intros H.
    specialize (H 2%nat _ 1%nat _ eq_refl eq_refl eq_refl). cbn in H. lia.
Qed.

(** C5, as the code has it: when the call sites of a file, in sorted order,
    are pairwise apart or strictly nested in an earlier suite, and lie in the
    range of the file, every task of the tree lies in the range of its suite,
    strictly so below a suite other than the file, and two tasks of one suite
    never overlap. *)
Theorem ranges_of_laminar_call_sites parseAst fileId testFilepath requestCode :
  Builder.laminar
    (Builder.sort
       (Classifier.walk (Rewrite.unwrapIdentity requestCode)
          (parseAst (Rewrite.unwrapIdentity requestCode)))) ->
  Builder.within
    (Ast.start (parseAst (Rewrite.unwrapIdentity requestCode)))
    (Ast.end_ (parseAst (Rewrite.unwrapIdentity requestCode)))
    (Builder.sort
       (Classifier.walk (Rewrite.unwrapIdentity requestCode)
          (parseAst (Rewrite.unwrapIdentity requestCode)))) ->
  exists info,
    Collect.collectTests parseAst fileId testFilepath requestCode = Some info
    /\ Builder.contained (Collect.heap info)
    /\ Builder.siblingsApart (Collect.heap info).
Proof.
  intros Hl Hw. unfold Collect.collectTests.
  set (code := Rewrite.unwrapIdentity requestCode) in *.
  set (ast := parseAst code) in *.
  set (ds := Builder.sort (Classifier.walk code ast)) in *.
  destruct (BuilderFacts.forEach_trace ds _
              (BuilderFacts.wf_initial fileId testFilepath ast))
    as (st & ds' & Hf & _).
  rewrite Hf. eexists. split; [reflexivity|]. cbn [Collect.heap].
  eapply RangeFacts.forEach_ranges; [| |exact Hl|exact Hf].
  - apply BuilderFacts.wf_initial.
  - apply RangeFacts.ranges_initial. exact Hw.
Qed.

Lemma ranges_of_laminar_call_sites_witness :
  exists info,
    Examples.collect Examples.suiteTwoTests_code Examples.suiteTwoTests_ast
    = Some info
    /\ Builder.contained (Collect.heap info)
    /\ Builder.siblingsApart (Collect.heap info).
Proof.
  apply (ranges_of_laminar_call_sites
           (fun _ => Examples.suiteTwoTests_ast) "hash" "a.test.ts"
           Examples.suiteTwoTests_code).
  - cbn.
    repeat match goal with
           | |- _ /\ _ => split
           | |- Forall _ _ => constructor
           | |- True => exact I
           | |- Builder.apartOrNested _ _ =>
               unfold Builder.apartOrNested; cbn;
               split; [lia | first [left; lia | right; split_and!;
                                    first [reflexivity | lia]]]
           end.
  - unfold Builder.within. cbn. repeat constructor; cbn; lia.
Defined.

(** * Further properties of the tree builder *)

Module TreeFacts.
Import Builder BuilderFacts Tree.

Lemma core_type t t' : core t = core t' -> Task.type t = Task.type t'.
Proof. intros H. exact (f_equal Task.type H). Qed.

Lemma enclosing_onChain h index cursor target :
  enclosing h index cursor target -> onChain h cursor target.
Proof.
  induction 1 as [c t Ht Hstop|c t p tg Ht Hs Hlt H1 IH]; [constructor|].
  eapply onChain_up; eauto.
Qed.

(** What the loop keeps true of the links between tasks. *)
Record linked (st : state) : Prop := {
  l_tasks : forall p pt,
      heap st !! p = Some pt -> Task.tasks pt = childrenOf (heap st) p;
  l_suites : forall a t p pt,
      heap st !! a = Some t -> Task.suite t = Some p ->
      heap st !! p = Some pt -> Task.type pt = suite;
  l_cursor : exists t,
      heap st !! lastSuite st = Some t /\ Task.type t = suite;
  l_modes : forall a t p pt,
      heap st !! a = Some t -> Task.suite t = Some p ->
      heap st !! p = Some pt -> Task.mode pt <> "run" ->
      Task.mode t = Task.mode pt
}.

Lemma linked_initial fileId testFilepath ast :
  linked (initial (fileTask fileId testFilepath ast)).
Proof.
  split; cbn.
  - intros [|p] pt Hp; [|destruct p; discriminate].
    injection Hp as <-. reflexivity.
  - intros [|a] t p pt Ha Hs; [|destruct a; discriminate].
    injection Ha as <-. discriminate.
  - eexists. split; reflexivity.
  - intros [|a] t p pt Ha Hs; [|destruct a; discriminate].
    injection Ha as <-. discriminate.
Qed.

Lemma onChain_suite h cursor a tc ta :
  (forall a t p pt, h !! a = Some t -> Task.suite t = Some p ->
                    h !! p = Some pt -> Task.type pt = suite) ->
  onChain h cursor a ->
  h !! cursor = Some tc -> Task.type tc = suite ->
  h !! a = Some ta -> Task.type ta = suite.
Proof.
  intros Hs Hc. revert tc. induction Hc as [|c t p a Ht Hp Hc' IH];
    intros tc Htc Hty Hta.
  - congruence.
  - destruct (h !! p) as [tp|] eqn:Htp.
    + eapply IH; eauto.
    + inversion Hc'; subst; congruence.
Qed.

Lemma filter_none {A} (f : A -> bool) l :
  (forall c, In c l -> f c = false) -> List.filter f l = [].
Proof.
  induction l as [|c l IH]; intros H; [reflexivity|]. cbn.
  rewrite (H c (or_introl eq_refl)). apply IH. intros c' Hc'. apply H.
  now right.
Qed.

Lemma suiteOf_placed h latest pt x c :
  h !! latest = Some pt -> (c < length h)%nat ->
  suiteOf (placed h latest pt x) c = suiteOf h c.
Proof.
  intros Hl Hc. unfold suiteOf.
  destruct (lookup_lt_is_Some_2 h c Hc) as [t Ht].
  destruct (placed_extends h latest pt x Hl _ _ Ht) as (t' & Ht' & E).
  rewrite Ht, Ht'. symmetry. exact (core_suite _ _ E).
Qed.

Lemma childrenOf_placed h latest pt x p :
  h !! latest = Some pt ->
  childrenOf (placed h latest pt x) p
  = childrenOf h p
      ++ (if bool_decide (Task.suite x = Some p) then [length h] else []).
Proof.
  intros Hl. unfold childrenOf.
  rewrite placed_length, List.seq_S, List.filter_app. cbn [List.filter Nat.add].
  f_equal.
  - apply List.filter_ext_in. intros c Hc. apply List.in_seq in Hc.
    rewrite suiteOf_placed by (assumption || lia). reflexivity.
  - assert (E : suiteOf (placed h latest pt x) (length h) = Task.suite x)
      by (unfold suiteOf; now rewrite placed_new).
    now rewrite E.
Qed.

Lemma place_linked st d st' d' :
  wf st -> linked st -> place st d = Some (st', d') -> linked st'.
Proof.
  intros Hwf Hl Hp.
  destruct (place_spec st d Hwf) as (target & pt & He & Hpt & Hle & Hpl).
  rewrite Hpl in Hp. injection Hp as <- <-.
  set (x := materialize d (resolveMode pt d) target).
  pose proof (lookup_lt_Some _ _ _ Hpt) as Htl.
  assert (Htype : Task.type pt = suite).
  { destruct (l_cursor _ Hl) as (tc & Htc & Hty).
    eapply (onChain_suite (heap st)); eauto using enclosing_onChain.
    apply Hl. }
  split; cbn [heap lastSuite].
  - intros p pt' Hp. rewrite (childrenOf_placed _ _ _ _ _ Hpt).
    cbn [x materialize Task.suite].
    destruct (placed_lookup _ _ _ _ _ _ Hpt Hp)
      as [[-> ->]|(Hlt & t0 & Ht0 & E & Hsame & Hpush)].
    + cbn [x materialize Task.tasks].
      rewrite bool_decide_eq_false_2 by (intros [=]; lia).
      rewrite app_nil_r. symmetry. apply filter_none.
      intros c Hc. apply List.in_seq in Hc. apply bool_decide_eq_false_2.
      unfold suiteOf. destruct (heap st !! c) as [tc|] eqn:Htc; [|discriminate].
      intros Hs. pose proof (wf_parent _ Hwf _ _ _ Htc Hs). lia.
    + destruct (decide (p = target)) as [->|Hn].
      * rewrite (Hpush eq_refl). cbn [Task.push Task.tasks].
        rewrite bool_decide_eq_true_2 by reflexivity.
        now rewrite (l_tasks _ Hl _ _ Hpt).
      * rewrite <- (Hsame Hn), (l_tasks _ Hl _ _ Ht0).
        rewrite bool_decide_eq_false_2 by congruence.
        now rewrite app_nil_r.
  - intros a t p ptt Ha Hs Hp.
    destruct (placed_lookup _ _ _ _ _ _ Hpt Ha)
      as [[-> ->]|(Hlt & t0 & Ht0 & E & _)].
    + cbn in Hs. injection Hs as <-.
      rewrite (placed_latest _ _ _ _ Hpt) in Hp. injection Hp as <-.
      exact Htype.
    + rewrite <- (core_suite _ _ E) in Hs.
      pose proof (wf_parent _ Hwf _ _ _ Ht0 Hs) as Hpa.
      destruct (placed_lookup _ _ _ _ _ _ Hpt Hp)
        as [[-> ->]|(_ & p0 & Hp0 & Ep & _)]; [lia|].
      rewrite <- (core_type _ _ Ep).
      exact (l_suites _ Hl _ _ _ _ Ht0 Hs Hp0).
  - destruct (LocalCallDefinition.type d) eqn:Hty.
    + exists x. split; [apply placed_new|exact Hty].
    + eexists. split; [apply placed_latest; exact Hpt|exact Htype].
  - intros a t p ptt Ha Hs Hp Hm.
    destruct (placed_lookup _ _ _ _ _ _ Hpt Ha)
      as [[-> ->]|(Hlt & t0 & Ht0 & E & _)].
    + cbn in Hs. injection Hs as <-.
      rewrite (placed_latest _ _ _ _ Hpt) in Hp. injection Hp as <-.
      cbn in *. unfold resolveMode.
      apply String.eqb_neq in Hm. now rewrite Hm.
    + rewrite <- (core_suite _ _ E) in Hs.
      pose proof (wf_parent _ Hwf _ _ _ Ht0 Hs) as Hpa.
      destruct (placed_lookup _ _ _ _ _ _ Hpt Hp)
        as [[-> ->]|(_ & p0 & Hp0 & Ep & _)]; [lia|].
      rewrite <- (core_mode _ _ E), <- (core_mode _ _ Ep).
      apply (l_modes _ Hl _ _ _ _ Ht0 Hs Hp0).
      now rewrite (core_mode _ _ Ep).
Qed.

Lemma forEach_linked ds :
  forall st st' ds',
    wf st -> linked st -> forEach st ds = Some (st', ds') ->
    wf st' /\ linked st'.
Proof.
  induction ds as [|d rest IH]; intros st st' ds' Hwf Hl Hf.
  - injection Hf as <- <-. now split.
  - cbn [forEach] in Hf.
    destruct (place st d) as [[st1 d1]|] eqn:Hp; [|discriminate].
    destruct (forEach st1 rest) as [[st2 r2]|] eqn:Hf2; [|discriminate].
    injection Hf as <- <-.
    eapply (IH st1); eauto using place_wf, place_linked.
Qed.

(** From every task the [suite] links lead to the file. *)
Lemma wf_reaches_file st :
  wf st -> forall a, (a < length (heap st))%nat -> onChain (heap st) a 0%nat.
Proof.
  intros Hwf a. induction a as [a IH] using lt_wf_ind. intros Ha.
  destruct a as [|a]; [constructor|].
  destruct (lookup_lt_is_Some_2 (heap st) (S a) Ha) as [t Ht].
  destruct (Task.suite t) as [p|] eqn:Hs.
  - pose proof (wf_parent _ Hwf _ _ _ Ht Hs) as Hlt.
    eapply onChain_up; [exact Ht|exact Hs|apply IH; lia].
  - exfalso. now apply (wf_nonroot _ Hwf _ _ Ht).
Qed.

End TreeFacts.

(** X1: the [tasks] of every task of the tree are the tasks whose [suite] link
    points to it, each once, in the order in which they were built. *)
Theorem children_are_linked_tasks fileId testFilepath ast ds :
  exists st ds',
    Builder.forEach
      (Builder.initial (Builder.fileTask fileId testFilepath ast)) ds
    = Some (st, ds')
    /\ forall p pt, Builder.heap st !! p = Some pt ->
         Task.tasks pt = Tree.childrenOf (Builder.heap st) p.
Proof.
  destruct (BuilderFacts.forEach_trace ds _
              (BuilderFacts.wf_initial fileId testFilepath ast))
    as (st & ds' & Hf & _).
  exists st, ds'. split; [exact Hf|].
  apply (TreeFacts.forEach_linked ds _ _ _
           (BuilderFacts.wf_initial fileId testFilepath ast)
           (TreeFacts.linked_initial fileId testFilepath ast) Hf).
Qed.

(** X2: only suites get children: every [suite] link points to a task of type
    suite, and the [tasks] of a test stay empty. *)
Theorem tests_are_leaves fileId testFilepath ast ds :
  exists st ds',
    Builder.forEach
      (Builder.initial (Builder.fileTask fileId testFilepath ast)) ds
    = Some (st, ds')
    /\ (forall a t p pt,
          Builder.heap st !! a = Some t -> Task.suite t = Some p ->
          Builder.heap st !! p = Some pt -> Task.type pt = suite)
    /\ (forall a t,
          Builder.heap st !! a = Some t -> Task.type t = test ->
          Task.tasks t = []).
Proof.
  destruct (BuilderFacts.forEach_trace ds _
              (BuilderFacts.wf_initial fileId testFilepath ast))
    as (st & ds' & Hf & _).
  destruct (TreeFacts.forEach_linked ds _ _ _
              (BuilderFacts.wf_initial fileId testFilepath ast)
              (TreeFacts.linked_initial fileId testFilepath ast) Hf)
    as [Hwf Hl].
  exists st, ds'. split; [exact Hf|]. split; [apply Hl|].
  intros a t Ha Hty. rewrite (TreeFacts.l_tasks _ Hl _ _ Ha).
  apply TreeFacts.filter_none. intros c Hc.
  apply bool_decide_eq_false_2. unfold Tree.suiteOf.
  destruct (Builder.heap st !! c) as [tc|] eqn:Htc; [|discriminate].
  intros Hs. pose proof (TreeFacts.l_suites _ Hl _ _ _ _ Htc Hs Ha).
  congruence.
Qed.

(** X3: the [suite] links form a tree below the file: a link always points to a
    task built earlier, only the file has none, and from every task the links
    lead to the file. *)
Theorem suite_links_reach_file fileId testFilepath ast ds :
  exists st ds',
    Builder.forEach
      (Builder.initial (Builder.fileTask fileId testFilepath ast)) ds
    = Some (st, ds')
    /\ (forall a t, Builder.heap st !! a = Some t ->
          (Task.suite t = None <-> a = 0%nat)
          /\ Builder.onChain (Builder.heap st) a 0%nat
          /\ forall p, Task.suite t = Some p -> (p < a)%nat).
Proof.
  destruct (BuilderFacts.forEach_trace ds _
              (BuilderFacts.wf_initial fileId testFilepath ast))
    as (st & ds' & Hf & Hwf & _).
  exists st, ds'. split; [exact Hf|]. intros a t Ha. split_and!.
  - split.
    + intros Hs. destruct (decide (a = 0%nat)) as [|Hn]; [assumption|].
      now destruct (BuilderFacts.wf_nonroot _ Hwf _ _ Ha Hn).
    + intros ->. destruct (BuilderFacts.wf_root _ Hwf) as (f & Hf0 & Hs).
      congruence.
  - apply TreeFacts.wf_reaches_file; [exact Hwf|].
    eapply lookup_lt_Some; eauto.
  - intros p Hs. exact (BuilderFacts.wf_parent _ Hwf _ _ _ Ha Hs).
Qed.

(** X4: a mode other than [run] is inherited all the way down: every task below
    a suite whose mode is not [run] has the mode of that suite. *)
Theorem mode_inherited_from_ancestors fileId testFilepath ast ds :
  exists st ds',
    Builder.forEach
      (Builder.initial (Builder.fileTask fileId testFilepath ast)) ds
    = Some (st, ds')
    /\ forall a b ta tb,
         Builder.onChain (Builder.heap st) a b ->
         Builder.heap st !! a = Some ta -> Builder.heap st !! b = Some tb ->
         Task.mode tb <> "run" -> Task.mode ta = Task.mode tb.
Proof.
  destruct (BuilderFacts.forEach_trace ds _
              (BuilderFacts.wf_initial fileId testFilepath ast))
    as (st & ds' & Hf & _).
  destruct (TreeFacts.forEach_linked ds _ _ _
              (BuilderFacts.wf_initial fileId testFilepath ast)
              (TreeFacts.linked_initial fileId testFilepath ast) Hf)
    as [Hwf Hl].
  exists st, ds'. split; [exact Hf|].
  intros a b ta tb Hc. revert ta.
  induction Hc as [|c t p b Ht Hs Hc' IH]; intros ta Ha Hb Hm.
  - congruence.
  - assert (t = ta) by congruence. subst t.
    destruct (Builder.heap st !! p) as [tp|] eqn:Hp.
    + specialize (IH tp eq_refl Hb Hm).
      rewrite <- IH. apply (TreeFacts.l_modes _ Hl _ _ _ _ Ha Hs Hp).
      now rewrite IH.
    + inversion Hc'; subst; congruence.
Qed.

(** * Further properties of the sort and of the walk *)

Module SortFacts.
Import Builder.

Definition startLe (a b : LocalCallDefinition.t) : Prop :=
  LocalCallDefinition.start a <= LocalCallDefinition.start b.

Lemma insert_perm d l : Permutation (insert d l) (d :: l).
Proof.
  induction l as [|x l IH]; cbn; [reflexivity|].
  destruct (LocalCallDefinition.start x <=? LocalCallDefinition.start d).
  - rewrite IH. apply perm_swap.
  - reflexivity.
Qed.

Lemma insert_sorted d l :
  StronglySorted startLe l -> StronglySorted startLe (insert d l).
Proof.
  induction 1 as [|x l Hs IH Hx]; cbn.
  - repeat constructor.
  - destruct (Z.leb_spec (LocalCallDefinition.start x)
                (LocalCallDefinition.start d)) as [Hle|Hgt].
    + constructor; [exact IH|].
      rewrite (insert_perm d l). constructor; assumption.
    + constructor; [now constructor|].
      constructor; [unfold startLe; lia|].
      eapply Forall_impl; [exact Hx|]. intros y Hy. unfold startLe in *. lia.
Qed.

(** Among the call sites that start at [k], [d] goes last. *)
Lemma insert_stable k d l :
  StronglySorted startLe l ->
  List.filter (fun x => LocalCallDefinition.start x =? k) (insert d l)
  = List.filter (fun x => LocalCallDefinition.start x =? k) l
      ++ List.filter (fun x => LocalCallDefinition.start x =? k) [d].
Proof.
  induction 1 as [|x l Hs IH Hx]; [reflexivity|]. cbn [insert].
  destruct (Z.leb_spec (LocalCallDefinition.start x)
              (LocalCallDefinition.start d)) as [Hle|Hgt].
  - cbn [List.filter]. rewrite IH.
    destruct (LocalCallDefinition.start x =? k); reflexivity.
  - cbn [List.filter].
    destruct (Z.eqb_spec (LocalCallDefinition.start d) k) as [Hd|Hd].
    + assert (E : List.filter (fun x => LocalCallDefinition.start x =? k)
                    (x :: l) = []).
      { apply TreeFacts.filter_none. intros y [<-|Hy].
        - apply Z.eqb_neq. lia.
        - rewrite List.Forall_forall in Hx. specialize (Hx y Hy).
          unfold startLe in Hx. apply Z.eqb_neq. lia. }
      cbn [List.filter] in E. rewrite E. reflexivity.
    + now rewrite app_nil_r.
Qed.

Lemma fold_insert l :
  forall acc, StronglySorted startLe acc ->
    let r := fold_left (fun acc d => insert d acc) l acc in
    Permutation r (acc ++ l)
    /\ StronglySorted startLe r
    /\ forall k,
         List.filter (fun x => LocalCallDefinition.start x =? k) r
         = List.filter (fun x => LocalCallDefinition.start x =? k) (acc ++ l).
Proof.
  induction l as [|d l IH]; intros acc Hacc; cbn.
  - rewrite app_nil_r. auto.
  - destruct (IH (insert d acc) (insert_sorted d _ Hacc)) as (Hp & Hs & Hk).
    cbn zeta in *. split_and!.
    + rewrite Hp, (insert_perm d acc). cbn. apply Permutation_middle.
    + exact Hs.
    + intros k. rewrite Hk, !List.filter_app, (insert_stable k d acc Hacc).
      cbn [List.filter]. rewrite <- app_assoc. f_equal.
      destruct (LocalCallDefinition.start d =? k); reflexivity.
Qed.

End SortFacts.

(** X5: the sort before the build keeps every call site, puts them in the order
    of their start offsets, and keeps call sites that start at the same
    offset in the order in which the walk found them. *)
Theorem sort_is_stable_by_start (l : list LocalCallDefinition.t) :
  Permutation (Builder.sort l) l
  /\ StronglySorted
       (fun a b => LocalCallDefinition.start a <= LocalCallDefinition.start b)
       (Builder.sort l)
  /\ forall k,
       List.filter (fun x => LocalCallDefinition.start x =? k) (Builder.sort l)
       = List.filter (fun x => LocalCallDefinition.start x =? k) l.
Proof.
  destruct (SortFacts.fold_insert l [] (SSorted_nil _)) as (Hp & Hs & Hk).
  split_and!; assumption.
Qed.

Module WalkFacts.
Import Ast.

Lemma omap_flat_map {A B} (f : A -> option B) (g : node -> list A) l :
  omap f (flat_map g l) = flat_map (fun n => omap f (g n)) l.
Proof.
  induction l as [|x l IH]; [reflexivity|]. cbn [flat_map].
  now rewrite omap_app, IH.
Qed.

(** The walk calls the visitor once on every call expression of the tree. *)
Lemma walk_omap code n :
  Classifier.walk code n
  = omap (Classifier.visitCallExpression code) (calls n).
Proof.
  assert (Hlist : forall l,
            Forall (fun n => Classifier.walk code n
                     = omap (Classifier.visitCallExpression code) (calls n)) l ->
            flat_map (Classifier.walk code) l
            = omap (Classifier.visitCallExpression code) (flat_map calls l)).
  { intros l Hl. rewrite omap_flat_map.
    induction Hl as [|x l Hx _ IH]; [reflexivity|]. cbn [flat_map].
    now rewrite Hx, IH. }
  induction n as [ | | | s e qs es IH | s e t q IHt IHq
                 | s e c args IHc IHa | s e o p IHo IHp | | k s e cs IH ]
    using node_induction; cbn [Classifier.walk calls]; try reflexivity.
  - now apply Hlist.
  - now rewrite omap_app, IHt, IHq.
  - rewrite !omap_app, IHc, (Hlist args IHa). reflexivity.
  - now rewrite omap_app, IHo, IHp.
  - now apply Hlist.
Qed.

End WalkFacts.

Module OrderFacts.
Import Builder BuilderFacts.

Lemma StronglySorted_lookup {A} (R : A -> A -> Prop) (l : list A) i j x y :
  StronglySorted R l -> (i < j)%nat ->
  l !! i = Some x -> l !! j = Some y -> R x y.
Proof.
  intros Hs. revert i j. induction Hs as [|a l Hs IH Ha]; intros i j Hij Hi Hj.
  - discriminate.
  - destruct j as [|j]; [lia|]. cbn in Hj. destruct i as [|i].
    + injection Hi as <-. rewrite List.Forall_forall in Ha. apply Ha.
      apply list_elem_of_In. eapply list_elem_of_lookup_2. exact Hj.
    + cbn in Hi. eapply IH; [|exact Hi|exact Hj]. lia.
Qed.

Lemma StronglySorted_filter {A} (R : A -> A -> Prop) f (l : list A) :
  StronglySorted R l -> StronglySorted R (List.filter f l).
Proof.
  induction 1 as [|a l Hs IH Ha]; cbn; [constructor|].
  destruct (f a); [|exact IH]. constructor; [exact IH|].
  rewrite List.Forall_forall in *. intros y Hy. apply Ha.
  apply List.filter_In in Hy. tauto.
Qed.

Lemma StronglySorted_seq a n : StronglySorted lt (seq a n).
Proof.
  revert a. induction n as [|n IH]; intros a; cbn; constructor; [apply IH|].
  rewrite List.Forall_forall. intros y Hy. apply List.in_seq in Hy. lia.
Qed.

(** In the tree of [collectTests] the tasks other than the file follow the
    start offsets of their call sites. *)
Lemma addresses_follow_starts ds st ds' fileId testFilepath ast :
  StronglySorted SortFacts.startLe ds ->
  forEach (initial (fileTask fileId testFilepath ast)) ds = Some (st, ds') ->
  forall a b ta tb, (0 < a)%nat -> (a < b)%nat ->
    heap st !! a = Some ta -> heap st !! b = Some tb ->
    Task.start ta <= Task.start tb.
Proof.
  intros Hs Hf a b ta tb Ha Hab Hta Htb.
  destruct (forEach_trace ds _ (wf_initial fileId testFilepath ast))
    as (st0 & ds0 & Hf0 & _ & _ & Hlen & Hall).
  rewrite Hf in Hf0. injection Hf0 as <- <-. cbn in Hlen.
  pose proof (lookup_lt_Some _ _ _ Hta) as Hla.
  pose proof (lookup_lt_Some _ _ _ Htb) as Hlb.
  destruct a as [|i]; [lia|]. destruct b as [|j]; [lia|].
  destruct (lookup_lt_is_Some_2 ds i) as [di Hdi]; [lia|].
  destruct (lookup_lt_is_Some_2 ds j) as [dj Hdj]; [lia|].
  destruct (Hall i di Hdi)
    as (? & ? & pi & pti & ti & _ & _ & _ & _ & _ & _ & Hti & Ei & _).
  destruct (Hall j dj Hdj)
    as (? & ? & pj & ptj & tj & _ & _ & _ & _ & _ & _ & Htj & Ej & _).
  cbn in Hti, Htj.
  assert (ti = ta) by congruence. assert (tj = tb) by congruence. subst.
  rewrite (core_start _ _ Ei), (core_start _ _ Ej). cbn.
  apply (StronglySorted_lookup _ ds i j di dj Hs); [lia|assumption..].
Qed.

End OrderFacts.

(** X6: the children of every suite of the tree are in source order: along
    [tasks], addresses increase and start offsets do not decrease. *)
Theorem children_in_source_order parseAst fileId testFilepath requestCode :
  exists info,
    Collect.collectTests parseAst fileId testFilepath requestCode = Some info
    /\ forall p pt i j ci cj ti tj,
         Collect.heap info !! p = Some pt ->
         (i < j)%nat ->
         Task.tasks pt !! i = Some ci -> Task.tasks pt !! j = Some cj ->
         Collect.heap info !! ci = Some ti ->
         Collect.heap info !! cj = Some tj ->
         (ci < cj)%nat /\ Task.start ti <= Task.start tj.
Proof.
  unfold Collect.collectTests.
  set (code := Rewrite.unwrapIdentity requestCode).
  set (ast := parseAst code).
  set (ds := Builder.sort (Classifier.walk code ast)).
  destruct (BuilderFacts.forEach_trace ds _
              (BuilderFacts.wf_initial fileId testFilepath ast))
    as (st & ds' & Hf & _).
  destruct (TreeFacts.forEach_linked ds _ _ _
              (BuilderFacts.wf_initial fileId testFilepath ast)
              (TreeFacts.linked_initial fileId testFilepath ast) Hf)
    as [Hwf Hl].
  rewrite Hf. eexists. split; [reflexivity|]. cbn [Collect.heap].
  intros p pt i j ci cj ti tj Hp Hij Hi Hj Hti Htj.
  rewrite (TreeFacts.l_tasks _ Hl _ _ Hp) in Hi, Hj.
  assert (Hlt : (ci < cj)%nat).
  { eapply (OrderFacts.StronglySorted_lookup lt); [|exact Hij|exact Hi|exact Hj].
    apply OrderFacts.StronglySorted_filter, OrderFacts.StronglySorted_seq. }
  split; [exact Hlt|].
  assert (Hci : (0 < ci)%nat).
  { destruct ci as [|ci]; [|lia]. exfalso.
    apply list_elem_of_lookup_2, list_elem_of_In, List.filter_In in Hi.
    destruct Hi as [_ Hi]. apply bool_decide_eq_true_1 in Hi.
    unfold Tree.suiteOf in Hi. rewrite Hti in Hi.
    destruct (BuilderFacts.wf_root _ Hwf) as (f & Hf0 & Hs). congruence. }
  eapply (OrderFacts.addresses_follow_starts ds); eauto.
  apply (SortFacts.fold_insert (Classifier.walk code ast) [] (SSorted_nil _)).
Qed.

(** X7: the tree has the file and one task for each call expression on which the
    visitor yields a call site, wherever the call expression stands in the
    syntax tree. *)
Theorem every_classified_call_has_a_task
    parseAst fileId testFilepath requestCode :
  exists info,
    Collect.collectTests parseAst fileId testFilepath requestCode = Some info
    /\ length (Collect.heap info)
       = S (length
              (omap (Classifier.visitCallExpression
                       (Rewrite.unwrapIdentity requestCode))
                 (Ast.calls (parseAst (Rewrite.unwrapIdentity requestCode)))))
    /\ forall c d,
         In c (Ast.calls (parseAst (Rewrite.unwrapIdentity requestCode))) ->
         Classifier.visitCallExpression
           (Rewrite.unwrapIdentity requestCode) c = Some d ->
         exists a t,
           a <> 0%nat
           /\ Collect.heap info !! a = Some t
           /\ Task.type t = LocalCallDefinition.type d
           /\ Task.name t = LocalCallDefinition.name d
           /\ Task.start t = LocalCallDefinition.start d
           /\ Task.end_ t = LocalCallDefinition.end_ d.
Proof.
  unfold Collect.collectTests.
  set (code := Rewrite.unwrapIdentity requestCode).
  set (ast := parseAst code).
  set (ds := Builder.sort (Classifier.walk code ast)).
  destruct (BuilderFacts.forEach_trace ds _
              (BuilderFacts.wf_initial fileId testFilepath ast))
    as (st & ds' & Hf & Hwf & _ & Hlen & Hall).
  rewrite Hf. eexists. split; [reflexivity|]. cbn [Collect.heap].
  destruct (SortFacts.fold_insert (Classifier.walk code ast) []
              (SSorted_nil _)) as (Hperm & _).
  cbn zeta in Hperm. fold (Builder.sort (Classifier.walk code ast)) in Hperm.
  fold ds in Hperm. cbn [app] in Hperm.
  split.
  - rewrite Hlen. cbn. f_equal.
    rewrite (Permutation_length Hperm). now rewrite WalkFacts.walk_omap.
  - intros c d Hc Hv.
    assert (Hd : d ∈ ds).
    { rewrite Hperm, WalkFacts.walk_omap. apply list_elem_of_omap.
      exists c. split; [now apply list_elem_of_In|exact Hv]. }
    apply list_elem_of_lookup_1 in Hd. destruct Hd as [i Hi].
    destruct (Hall i d Hi)
      as (? & ? & p & pt & t & _ & _ & _ & _ & _ & _ & Ht & E & _).
    exists (S i), t. cbn in Ht. split_and!; try easy.
    + exact (f_equal Task.type E).
    + exact (f_equal Task.name E).
    + exact (f_equal Task.start E).
    + exact (f_equal Task.end_ E).
Qed.

Module AncestryFacts.
Import Builder BuilderFacts RangeFacts.

(** What the loop keeps true, on laminar call sites, of the tasks whose range
    holds the start of another task. *)
Record ancestry (st : state) (todo : list LocalCallDefinition.t) : Prop := {
  a_before : forall a t,
      heap st !! a = Some t -> a <> 0%nat ->
      forall d, In d todo -> Task.start t < LocalCallDefinition.start d;
  a_ancestors : forall a k ta tk,
      heap st !! a = Some ta -> heap st !! k = Some tk ->
      a <> 0%nat -> k <> 0%nat -> a <> k ->
      Task.start tk <= Task.start ta <= Task.end_ tk ->
      onChain (heap st) a k
}.

Lemma ancestry_initial fileId testFilepath ast ds :
  ancestry (initial (fileTask fileId testFilepath ast)) ds.
Proof.
  split; cbn.
  - intros [|a] t Ha Hn; [congruence|destruct a; discriminate].
  - intros a [|k] ta tk Ha Hk _ Hn; [congruence|destruct k; discriminate].
Qed.

Lemma place_ancestry st d todo st' d' :
  wf st -> ranges st (d :: todo) -> ancestry st (d :: todo) ->
  laminar (d :: todo) ->
  place st d = Some (st', d') ->
  ancestry st' todo.
Proof.
  intros Hwf Hr Ha [Hhead _] Hp.
  rewrite List.Forall_forall in Hhead.
  destruct (place_spec st d Hwf) as (target & pt & He & Hpt & Hle & Hpl).
  rewrite Hpl in Hp. injection Hp as <- <-.
  set (x := materialize d (resolveMode pt d) target).
  pose proof (placed_extends (heap st) target pt x Hpt) as Hext.
  split; cbn [heap lastSuite].
  - intros a t Hat Hn d' Hd'.
    destruct (placed_lookup _ _ _ _ _ _ Hpt Hat)
      as [[-> ->]|(Hlt & t0 & Ht0 & E & _)].
    + cbn. destruct (Hhead d' Hd') as (Hv & [Hl|(_ & Hl & _)]); lia.
    + rewrite <- (core_start _ _ E).
      apply (a_before _ _ Ha _ _ Ht0 Hn). now right.
  - intros a k ta tk Hat Hkt Hn Hk Hak Hin.
    destruct (placed_lookup _ _ _ _ _ _ Hpt Hkt)
      as [[-> ->]|(Hltk & tk0 & Htk0 & Ek & _)].
    + (* the new task holds no earlier start *)
      destruct (placed_lookup _ _ _ _ _ _ Hpt Hat)
        as [[-> ->]|(Hlta & ta0 & Hta0 & Ea & _)]; [congruence|].
      exfalso. rewrite <- (core_start _ _ Ea) in Hin. cbn in Hin.
      pose proof (a_before _ _ Ha _ _ Hta0 Hn d (or_introl eq_refl)). lia.
    + rewrite <- (core_start _ _ Ek), <- (core_end _ _ Ek) in Hin.
      destruct (placed_lookup _ _ _ _ _ _ Hpt Hat)
        as [[-> ->]|(Hlta & ta0 & Hta0 & Ea & _)].
      * cbn in Hin.
        eapply onChain_up; [apply placed_new|reflexivity|].
        eapply onChain_extends; [exact Hext|].
        destruct (r_open _ _ Hr _ _ Htk0 Hk) as [Hc|Hc].
        -- destruct (enclosing_popped _ _ _ _ _ He Hc)
             as [Hc'|(t1 & Ht1 & Hl)]; [exact Hc'|].
           assert (t1 = tk0) by congruence. subst t1. lia.
        -- specialize (Hc d (or_introl eq_refl)). lia.
      * rewrite <- (core_start _ _ Ea) in Hin.
        eapply onChain_extends; [exact Hext|].
        exact (a_ancestors _ _ Ha _ _ _ _ Hta0 Htk0 Hn Hk Hak Hin).
Qed.

Lemma forEach_ancestry ds :
  forall st st' ds',
    wf st -> ranges st ds -> ancestry st ds -> laminar ds ->
    forEach st ds = Some (st', ds') ->
    ancestry st' [].
Proof.
  induction ds as [|d rest IH]; intros st st' ds' Hwf Hr Ha Hl Hf.
  - injection Hf as <- <-. exact Ha.
  - cbn [forEach] in Hf.
    destruct (place st d) as [[st1 d1]|] eqn:Hp; [|discriminate].
    destruct (forEach st1 rest) as [[st2 r2]|] eqn:Hf2; [|discriminate].
    injection Hf as <- <-.
    eapply (IH st1); [eapply place_wf; eauto|eapply place_ranges; eauto
                     |eapply place_ancestry; eauto|apply Hl|exact Hf2].
Qed.

End AncestryFacts.

(** X8: on call sites that are pairwise apart or nested and lie in the file, the
    nesting is recovered in full: a task other than the file whose range holds
    the start of another task is one of its ancestors. *)
Theorem enclosing_tasks_are_ancestors
    parseAst fileId testFilepath requestCode :
  Builder.laminar
    (Builder.sort
       (Classifier.walk (Rewrite.unwrapIdentity requestCode)
          (parseAst (Rewrite.unwrapIdentity requestCode)))) ->
  Builder.within
    (Ast.start (parseAst (Rewrite.unwrapIdentity requestCode)))
    (Ast.end_ (parseAst (Rewrite.unwrapIdentity requestCode)))
    (Builder.sort
       (Classifier.walk (Rewrite.unwrapIdentity requestCode)
          (parseAst (Rewrite.unwrapIdentity requestCode)))) ->
  exists info,
    Collect.collectTests parseAst fileId testFilepath requestCode = Some info
    /\ forall a k ta tk,
         Collect.heap info !! a = Some ta ->
         Collect.heap info !! k = Some tk ->
         a <> 0%nat -> k <> 0%nat -> a <> k ->
         Task.start tk <= Task.start ta <= Task.end_ tk ->
         Builder.onChain (Collect.heap info) a k.
Proof.
  intros Hl Hw. unfold Collect.collectTests.
  set (code := Rewrite.unwrapIdentity requestCode) in *.
  set (ast := parseAst code) in *.
  set (ds := Builder.sort (Classifier.walk code ast)) in *.
  destruct (BuilderFacts.forEach_trace ds _
              (BuilderFacts.wf_initial fileId testFilepath ast))
    as (st & ds' & Hf & _).
  rewrite Hf. eexists. split; [reflexivity|]. cbn [Collect.heap].
  apply (AncestryFacts.a_ancestors st []).
  eapply AncestryFacts.forEach_ancestry; [| | |exact Hl|exact Hf].
  - apply BuilderFacts.wf_initial.
  - apply RangeFacts.ranges_initial. exact Hw.
  - apply AncestryFacts.ancestry_initial.
Qed.

Lemma enclosing_tasks_are_ancestors_witness :
  exists info,
    Examples.collect Examples.suiteTwoTests_code Examples.suiteTwoTests_ast
    = Some info
    /\ forall a k ta tk,
         Collect.heap info !! a = Some ta ->
         Collect.heap info !! k = Some tk ->
         a <> 0%nat -> k <> 0%nat -> a <> k ->
         Task.start tk <= Task.start ta <= Task.end_ tk ->
         Builder.onChain (Collect.heap info) a k.
Proof.
  apply (enclosing_tasks_are_ancestors
           (fun _ => Examples.suiteTwoTests_ast) "hash" "a.test.ts"
           Examples.suiteTwoTests_code).
  - cbn.
    repeat match goal with
           | |- _ /\ _ => split
           | |- Forall _ _ => constructor
           | |- True => exact I
           | |- Builder.apartOrNested _ _ =>
               unfold Builder.apartOrNested; cbn;
               split; [lia | first [left; lia | right; split_and!;
                                    first [reflexivity | lia]]]
           end.
  - unfold Builder.within. cbn. repeat constructor; cbn; lia.
Defined.

(** * Further properties of the identity unwrapping *)

Module RewriteMore.
Import Rewrite RewriteFacts.

(** Every character of [s] satisfies [f]. *)
Fixpoint allChars (f : ascii -> bool) (s : string) : bool :=
  match s with
  | EmptyString => true
  | String c r => f c && allChars f r
  end.

(** The characters of a capture group. *)
Definition wordish (c : ascii) : bool := isWord c || Ascii.eqb c ".".

Definition notSpace (c : ascii) : bool := negb (Ascii.eqb c " ").

(** [s] ends with an opening parenthesis. *)
Fixpoint endsOpen (s : string) : bool :=
  match s with
  | EmptyString => false
  | String c EmptyString => Ascii.eqb c "("
  | String _ r => endsOpen r
  end.

Lemma allChars_app f a b :
  allChars f (a +:+ b) = allChars f a && allChars f b.
Proof.
  induction a as [|c a IH]; [reflexivity|].
  rewrite Js.append_cons. cbn [allChars]. now rewrite IH, andb_assoc.
Qed.

Lemma allChars_impl (f g : ascii -> bool) s :
  (forall c, f c = true -> g c = true) ->
  allChars f s = true -> allChars g s = true.
Proof.
  intros H. induction s as [|c s IH]; [reflexivity|]. cbn [allChars].
  rewrite !andb_true_iff. intros [Hc Hs]. split; [now apply H|now apply IH].
Qed.

Lemma isWord_wordish c : isWord c = true -> wordish c = true.
Proof. unfold wordish. now intros ->. Qed.

Lemma wordish_notSpace c : wordish c = true -> notSpace c = true.
Proof.
  unfold wordish, notSpace. destruct (Ascii.eqb_spec c " ") as [->|];
    [discriminate|reflexivity].
Qed.

Lemma spanWord_word s : allChars isWord (fst (spanWord s)) = true.
Proof.
  induction s as [|c s IH]; [reflexivity|]. cbn [spanWord].
  destruct (isWord c) eqn:Hc; [|reflexivity].
  destruct (spanWord s) as [w r]. cbn [fst allChars] in *.
  apply andb_true_iff. split; assumption.
Qed.

Lemma spanWord_stop w c r :
  allChars isWord w = true -> isWord c = false ->
  spanWord (w +:+ String c r) = (w, String c r).
Proof.
  intros Hw Hc. induction w as [|a w IH].
  - change (spanWord (String c r) = (EmptyString, String c r)).
    cbn [spanWord]. now rewrite Hc.
  - cbn [allChars] in Hw. apply andb_true_iff in Hw. destruct Hw as [Ha Hw].
    rewrite Js.append_cons. cbn [spanWord]. now rewrite Ha, (IH Hw).
Qed.

Lemma stripPrefix_append p r : Js.stripPrefix p (p +:+ r) = Some r.
Proof.
  induction p as [|a p IH]; [reflexivity|].
  rewrite Js.append_cons. cbn. now rewrite Ascii.eqb_refl.
Qed.

(** The parts of a match. *)
Lemma matchIdentity_parts s g r :
  matchIdentity s = Some (g, r) ->
  exists w1 w2,
    g = w1 +:+ String "." w2
    /\ w1 <> EmptyString /\ w2 <> EmptyString
    /\ allChars isWord w1 = true /\ allChars isWord w2 = true.
Proof.
  unfold matchIdentity.
  destruct (Js.stripPrefix identityPrefix s) as [r0|]; [|discriminate].
  pose proof (spanWord_word r0) as H1.
  destruct (spanWord r0) as [w1 r1]. cbn in H1.
  destruct w1 as [|c1 w1]; [discriminate|].
  destruct r1 as [|d r1]; [discriminate|].
  destruct (Ascii.eqb_spec d "."%char) as [->|Hd].
  2:{ destruct d as [[] [] [] [] [] [] [] []]; try discriminate;
      exfalso; apply Hd; reflexivity. }
  pose proof (spanWord_word r1) as H2.
  destruct (spanWord r1) as [w2 r2]. cbn in H2.
  destruct w2 as [|c2 w2]; [discriminate|].
  destruct r2 as [|e r2]; [discriminate|].
  destruct (Ascii.eqb_spec e ")"%char) as [->|He].
  2:{ destruct e as [[] [] [] [] [] [] [] []]; try discriminate;
      exfalso; apply He; reflexivity. }
  intros [= <- <-]. exists (String c1 w1), (String c2 w2).
  split_and!; try easy.
Qed.

(** A match only depends on the text it consumes. *)
Lemma matchIdentity_intro w1 w2 r :
  w1 <> EmptyString -> w2 <> EmptyString ->
  allChars isWord w1 = true -> allChars isWord w2 = true ->
  matchIdentity
    (identityPrefix +:+ (w1 +:+ String "." (w2 +:+ String ")" r)))
  = Some (w1 +:+ String "." w2, r).
Proof.
  intros H1 H2 Hw1 Hw2. unfold matchIdentity.
  rewrite stripPrefix_append, (spanWord_stop w1 "." _ Hw1 eq_refl).
  destruct w1 as [|c1 w1]; [congruence|].
  rewrite (spanWord_stop w2 ")" _ Hw2 eq_refl).
  destruct w2 as [|c2 w2]; [congruence|]. reflexivity.
Qed.

(** The pattern matches at no position of [t]. *)
Fixpoint clean (t : string) : Prop :=
  matchIdentity t = None
  /\ match t with
     | EmptyString => True
     | String _ r => clean r
     end.

Lemma matchIdentity_head c r :
  c <> "_"%char -> matchIdentity (String c r) = None.
Proof.
  intros Hc. unfold matchIdentity, identityPrefix. cbn [Js.stripPrefix].
  destruct (Ascii.eqb_spec "_" c) as [<-|]; [congruence|reflexivity].
Qed.

Lemma clean_cons c r : c <> "_"%char -> clean r -> clean (String c r).
Proof. intros Hc Hr. split; [now apply matchIdentity_head|exact Hr]. Qed.

(** A prefix of wordish text followed by a closing parenthesis is wordish or
    holds a closing parenthesis. *)
Lemma stripPrefix_wordish g r :
  allChars wordish g = true ->
  forall p x, Js.stripPrefix p (g +:+ String ")" r) = Some x ->
    allChars wordish p = true
    \/ allChars (fun c => negb (Ascii.eqb c ")")) p = false.
Proof.
  induction g as [|c g IH]; intros Hg p x Hp.
  - destruct p as [|a p]; [now left|]. right.
    change (Js.stripPrefix (String a p) (String ")" r) = Some x) in Hp.
    cbn [Js.stripPrefix] in Hp.
    destruct (Ascii.eqb_spec a ")") as [->|]; [reflexivity|discriminate].
  - cbn [allChars] in Hg. apply andb_true_iff in Hg. destruct Hg as [Hc Hg].
    destruct p as [|a p]; [now left|].
    rewrite Js.append_cons in Hp. cbn [Js.stripPrefix] in Hp.
    destruct (Ascii.eqb_spec a c) as [->|]; [|discriminate].
    destruct (IH Hg p x Hp) as [H|H].
    + left. cbn [allChars]. now rewrite Hc, H.
    + right. cbn [allChars]. rewrite H. apply andb_false_r.
Qed.

(** The pattern does not match inside a capture group. *)
Lemma matchIdentity_wordish g r :
  allChars wordish g = true -> matchIdentity (g +:+ String ")" r) = None.
Proof.
  intros Hg. unfold matchIdentity.
  destruct (Js.stripPrefix identityPrefix (g +:+ String ")" r)) as [x|] eqn:E;
    [|reflexivity].
  destruct (stripPrefix_wordish g r Hg _ _ E) as [H|H]; discriminate H.
Qed.

Lemma clean_wordish g r :
  allChars wordish g = true -> clean (String ")" r) ->
  clean (g +:+ String ")" r).
Proof.
  induction g as [|c g IH]; intros Hg Hr; [exact Hr|].
  rewrite Js.append_cons. split.
  - rewrite <- Js.append_cons. now apply matchIdentity_wordish.
  - apply IH; [|exact Hr]. cbn [allChars] in Hg.
    now apply andb_true_iff in Hg.
Qed.

Lemma clean_replacement g r :
  allChars wordish g = true -> clean r -> clean (replacement g +:+ r).
Proof.
  intros Hg Hr. unfold replacement, padding.
  rewrite Js.append_cons, !Js.append_assoc.
  apply clean_cons; [discriminate|].
  repeat (rewrite Js.append_cons; apply clean_cons; [discriminate|]).
  change (EmptyString +:+ (g +:+ (")" +:+ r))) with (g +:+ String ")" r).
  apply clean_wordish; [exact Hg|]. apply clean_cons; [discriminate|exact Hr].
Qed.

(** Text without spaces that does not end with an opening parenthesis, when
    it heads the rewritten code, heads the code too. *)
Lemma prefix_back n :
  forall s m x, (String.length s <= n)%nat ->
    allChars notSpace m = true -> endsOpen m = false ->
    Js.stripPrefix m (unwrapIdentity s) = Some x ->
    exists y, Js.stripPrefix m s = Some y.
Proof.
  induction n as [|n IH]; intros s m x Hn Hm He Hp.
  - destruct s; [|cbn in Hn; lia]. eauto.
  - destruct m as [|a m]; [cbn; eauto|].
    destruct s as [|c rest]; [exact (ex_intro _ x Hp)|].
    rewrite unwrapIdentity_cons in Hp.
    destruct (matchIdentity (String c rest)) as [[g after]|] eqn:E.
    + exfalso. unfold replacement, padding in Hp.
      rewrite Js.append_cons in Hp. cbn [Js.stripPrefix] in Hp.
      destruct (Ascii.eqb_spec a "(") as [->|]; [|discriminate].
      destruct m as [|b m]; [discriminate He|].
      rewrite !Js.append_assoc, Js.append_cons in Hp.
      cbn [Js.stripPrefix] in Hp.
      destruct (Ascii.eqb_spec b " ") as [->|]; [|discriminate].
      discriminate Hm.
    + cbn [Js.stripPrefix] in Hp |- *.
      destruct (Ascii.eqb a c); [|discriminate].
      cbn [allChars] in Hm. apply andb_true_iff in Hm.
      apply (IH rest m x); [cbn in Hn; lia|tauto| |exact Hp].
      destruct m; [reflexivity|exact He].
Qed.

Lemma endsOpen_snoc a c : endsOpen (a +:+ String c EmptyString) = Ascii.eqb c "(".
Proof.
  induction a as [|x a IH]; [reflexivity|].
  rewrite Js.append_cons. cbn [endsOpen]. rewrite IH.
  destruct a; reflexivity.
Qed.

(** The rewritten code does not start with a match. *)
Lemma unwrap_head s : matchIdentity (unwrapIdentity s) = None.
Proof.
  destruct (matchIdentity (unwrapIdentity s)) as [[g r]|] eqn:E;
    [exfalso|reflexivity].
  destruct (matchIdentity_parts _ _ _ E) as (w1 & w2 & -> & H1 & H2 & Hw1 & Hw2).
  pose proof (matchIdentity_shape _ _ _ E) as Hs.
  set (m := identityPrefix +:+ ((w1 +:+ String "." w2) +:+ String ")" EmptyString)).
  assert (Hsm : unwrapIdentity s = m +:+ r).
  { rewrite Hs. unfold m. rewrite !Js.append_assoc. reflexivity. }
  assert (Hp : Js.stripPrefix m (unwrapIdentity s) = Some r)
    by (rewrite Hsm; apply stripPrefix_append).
  destruct (prefix_back (String.length s) s m r (le_n _)) as [y Hy];
    [| |exact Hp|].
  - unfold m. rewrite !allChars_app. cbn [allChars].
    rewrite (allChars_impl isWord notSpace w1), (allChars_impl isWord notSpace w2);
      try assumption; try reflexivity;
      intros c Hc; apply wordish_notSpace, isWord_wordish, Hc.
  - unfold m. rewrite <- !Js.append_assoc. apply endsOpen_snoc.
  - apply stripPrefix_app in Hy.
    destruct s as [|c rest]; [discriminate E|].
    rewrite unwrapIdentity_cons in E, Hsm.
    assert (Hms : matchIdentity (String c rest) = Some (w1 +:+ String "." w2, y)).
    { rewrite Hy. unfold m. rewrite !Js.append_assoc, !Js.append_cons.
      change (EmptyString +:+ y) with y.
      now apply matchIdentity_intro. }
    rewrite Hms in E. unfold replacement in E.
    rewrite Js.append_cons in E. now rewrite matchIdentity_head in E.
Qed.

Lemma unwrap_clean n :
  forall s, (String.length s <= n)%nat -> clean (unwrapIdentity s).
Proof.
  induction n as [|n IH]; intros s Hn.
  - destruct s; [|cbn in Hn; lia]. now split.
  - destruct s as [|c rest]; [now split|].
    pose proof (unwrap_head (String c rest)) as Hh.
    rewrite unwrapIdentity_cons in *.
    destruct (matchIdentity (String c rest)) as [[g after]|] eqn:E.
    + pose proof (matchIdentity_shorter _ _ _ E) as Hlt.
      destruct (matchIdentity_parts _ _ _ E)
        as (w1 & w2 & -> & _ & _ & Hw1 & Hw2).
      apply clean_replacement; [|apply IH; cbn in *; lia].
      rewrite allChars_app. cbn [allChars].
      rewrite (allChars_impl isWord wordish w1 isWord_wordish Hw1),
        (allChars_impl isWord wordish w2 isWord_wordish Hw2). reflexivity.
    + split; [exact Hh|]. apply IH. cbn in Hn. lia.
Qed.

(** Where the pattern matches nowhere, the rewrite finds no span and changes
    nothing. *)
Lemma clean_fixed t :
  clean t -> (forall offset, matchSpans offset t = []) /\ unwrapIdentity t = t.
Proof.
  induction t as [|c t IH]; intros Hc; [now split|].
  destruct Hc as [Hm Hc]. destruct (IH Hc) as [IHs IHu]. split.
  - intros offset. rewrite matchSpans_cons, Hm. apply IHs.
  - rewrite unwrapIdentity_cons, Hm. now rewrite IHu.
Qed.

End RewriteMore.

(** X9: after the rewrite no [__vite_ssr_identity__(x.y)] is left: the pattern
    matches at no position of the rewritten code, and rewriting again changes
    nothing. *)
Theorem unwrapIdentity_leaves_no_wrapper (s : string) :
  Rewrite.matchSpans 0 (Rewrite.unwrapIdentity s) = []
  /\ (forall a u, Rewrite.unwrapIdentity s = a +:+ u ->
        Rewrite.matchIdentity u = None)
  /\ Rewrite.unwrapIdentity (Rewrite.unwrapIdentity s)
     = Rewrite.unwrapIdentity s.
Proof.
  pose proof (RewriteMore.unwrap_clean _ s (le_n _)) as Hc.
  destruct (RewriteMore.clean_fixed _ Hc) as [Hs Hu].
  split; [apply Hs|]. split; [|exact Hu].
  revert Hc. generalize (Rewrite.unwrapIdentity s) as t. clear.
  intros t Hc a. revert t Hc. induction a as [|c a IH]; intros t Hc u ->.
  - destruct u; apply Hc.
  - rewrite Js.append_cons in Hc. destruct Hc as [_ Hc]. eapply IH; eauto.
Qed.

Module SpanFacts.
Import Rewrite RewriteFacts Span.

Lemma get_append_l a b i :
  (i < String.length a)%nat -> String.get i (a +:+ b) = String.get i a.
Proof. intros H. symmetry. apply append_correct1, H. Qed.

Lemma get_padding i : (i < 21)%nat -> String.get i padding = Some " "%char.
Proof.
  intros H. do 21 (destruct i as [|i]; [reflexivity|]). lia.
Qed.

Lemma rewrittenSpan_shift s out s' out' k q l :
  String.length s = (k + String.length s')%nat ->
  (forall j, String.get (k + j) out = String.get j out') ->
  (forall j, String.get (k + j) s = String.get j s') ->
  rewrittenSpan s' out' q l -> rewrittenSpan s out (k + q) l.
Proof.
  intros Hl Ho Hs (H1 & H2 & H3 & H4 & H5). unfold rewrittenSpan.
  split_and!; try lia.
  - now rewrite Ho.
  - intros i Hi. rewrite <- Nat.add_assoc, Ho. now apply H4.
  - intros i Hi. rewrite <- Nat.add_assoc, Ho, Hs. now apply H5.
Qed.

Lemma spans_rewritten n :
  forall s offset, (String.length s <= n)%nat ->
    Forall (fun span =>
              exists q, fst span = (offset + q)%nat
                        /\ rewrittenSpan s (unwrapIdentity s) q (snd span))
      (matchSpans offset s).
Proof.
  induction n as [|n IH]; intros s offset Hn.
  - destruct s; [|cbn in Hn; lia]. constructor.
  - destruct s as [|c rest]; [constructor|].
    rewrite unwrapIdentity_cons, matchSpans_cons.
    destruct (matchIdentity (String c rest)) as [[g after]|] eqn:E.
    + pose proof (matchIdentity_shorter _ _ _ E) as Hlt.
      pose proof (replacement_length _ _ _ E) as Hr.
      destruct (RewriteMore.matchIdentity_parts _ _ _ E)
        as (w1 & w2 & Hg & H1 & H2 & _).
      assert (Hs : String c rest
                   = (identityPrefix +:+ (g +:+ ")")) +:+ after).
      { rewrite (matchIdentity_shape _ _ _ E) at 1.
        rewrite !Js.append_assoc. reflexivity. }
      set (len := (String.length (String c rest) - String.length after)%nat)
        in *.
      assert (Hl : String.length (identityPrefix +:+ (g +:+ ")")) = len).
      { subst len. rewrite Hs at 1. rewrite !Js.length_append. lia. }
      assert (Hlen : String.length (String c rest)
                     = (len + String.length after)%nat) by (subst len; lia).
      assert (Hglen : (2 < String.length g)%nat).
      { rewrite Hg, Js.length_append. cbn.
        destruct w1; [congruence|]. destruct w2; [congruence|]. cbn. lia. }
      assert (Hl' : len = (22 + (String.length g + 1))%nat).
      { rewrite <- Hl, !Js.length_append. reflexivity. }
      assert (Ho1 : replacement g +:+ unwrapIdentity after
                    = String "(" (padding
                                  +:+ ((g +:+ ")") +:+ unwrapIdentity after))).
      { unfold replacement. rewrite Js.append_cons, !Js.append_assoc.
        reflexivity. }
      assert (Ho2 : replacement g +:+ unwrapIdentity after
                    = String "(" padding
                      +:+ ((g +:+ ")") +:+ unwrapIdentity after)).
      { rewrite Ho1, Js.append_cons. reflexivity. }
      assert (Hs2 : String c rest
                    = identityPrefix +:+ ((g +:+ ")") +:+ after)).
      { rewrite Hs, Js.append_assoc. reflexivity. }
      cbv zeta. constructor.
      * exists 0%nat. cbn [fst snd]. split; [lia|].
        unfold rewrittenSpan. rewrite !Nat.add_0_l.
        split_and!; try lia.
        -- rewrite Ho1. reflexivity.
        -- intros i Hi. rewrite Ho1. cbn [Nat.add].
           destruct i as [|i]; [lia|]. cbn [String.get].
           rewrite get_append_l by (cbn; lia). apply get_padding. lia.
        -- intros i Hi. rewrite Ho2, Hs2. cbn [Nat.add].
           rewrite (get_append_r (String "(" padding))
             by (change (String.length (String "(" padding)) with 22%nat; lia).
           rewrite (get_append_r identityPrefix)
             by (change (String.length identityPrefix) with 22%nat; lia).
           change (String.length (String "(" padding)) with 22%nat.
           change (String.length identityPrefix) with 22%nat.
           rewrite !(get_append_l (g +:+ ")"))
             by (rewrite Js.length_append; cbn; lia).
           reflexivity.
      * eapply Forall_impl; [apply (IH after (offset + len)%nat); lia|].
        intros [p l] (q & Hp & Hq). cbn [fst snd] in *.
        exists (len + q)%nat. split; [lia|].
        eapply rewrittenSpan_shift; [exact Hlen| | |exact Hq].
        -- intros j. rewrite get_append_r by lia. f_equal. lia.
        -- intros j. rewrite Hs, get_append_r by lia. f_equal. lia.
    + eapply Forall_impl; [apply (IH rest (S offset)); cbn in Hn; lia|].
      intros [p l] (q & Hp & Hq). cbn [fst snd] in *.
      exists (1 + q)%nat. split; [lia|].
      eapply rewrittenSpan_shift; [| | |exact Hq]; reflexivity.
Qed.

End SpanFacts.

(** X10: in every span that the rewrite matches, the first character becomes an
    opening parenthesis, the next 21 become spaces, and the member expression
    and the closing parenthesis of the wrapper keep their offsets. *)
Theorem unwrapIdentity_keeps_member_offsets (s : string) :
  Forall (fun span =>
            Span.rewrittenSpan s (Rewrite.unwrapIdentity s)
              (fst span) (snd span))
    (Rewrite.matchSpans 0 s).
Proof.
  eapply Forall_impl; [apply (SpanFacts.spans_rewritten _ s 0%nat (le_n _))|].
  intros [p l] (q & Hp & Hq). cbn [fst snd] in *. now subst.
Qed.

(** * Properties of the reporter's error queue *)

Module ReporterFacts.
Import Reporter.

Lemma sameStack_eq a b : sameStack a b = true <-> a = b.
Proof.
  destruct a as [x|], b as [y|]; cbn; try (split; congruence).
  rewrite String.eqb_eq. split; congruence.
Qed.

(** What [find] and [push] do on a queue without empty entries. *)
Lemma pushOnPrevious_spec task stack queue :
  Forall (fun i : entry => snd i <> []) queue ->
  (pushOnPrevious task stack queue = Some None
   /\ Forall (fun i => keyOf i <> (stack, projectOf task)) queue)
  \/ exists q1 i q2,
       queue = q1 ++ i :: q2
       /\ pushOnPrevious task stack queue
          = Some (Some (q1 ++ (fst i, snd i ++ [task]) :: q2))
       /\ keyOf i = (stack, projectOf task).
Proof.
  induction 1 as [|i rest Hi Hrest IH]; [left; split; [reflexivity|constructor]|].
  cbn [pushOnPrevious]. unfold isPrevious.
  destruct (sameStack (stackOf (fst i)) stack) eqn:Hs; cbn [negb].
  - apply sameStack_eq in Hs.
    destruct (snd i) as [|first ts] eqn:Hts; [congruence|].
    destruct (String.eqb_spec (projectOf first) (projectOf task)) as [Hp|Hp].
    + right. exists [], i, rest. cbn. rewrite Hts. split_and!; try reflexivity.
      unfold keyOf. rewrite Hts, Hs, Hp. reflexivity.
    + destruct IH as [[-> IH]|(q1 & j & q2 & -> & -> & Hk)].
      * left. split; [reflexivity|]. constructor; [|exact IH].
        unfold keyOf. rewrite Hts. congruence.
      * right. exists (i :: q1), j, q2. split_and!; try reflexivity.
        exact Hk.
  - assert (Hne : stackOf (fst i) <> stack).
    { intros E. apply sameStack_eq in E. congruence. }
    destruct IH as [[-> IH]|(q1 & j & q2 & -> & -> & Hk)].
    + left. split; [reflexivity|]. constructor; [|exact IH].
      unfold keyOf. congruence.
    + right. exists (i :: q1), j, q2. split_and!; try reflexivity. exact Hk.
Qed.

(** What the gathering keeps true of the queue, [occ] being the errors seen
    so far, each with its task. *)
Record gathered (queue : list entry)
    (occ : list (ReportedTask * option ErrorWithDiff)) : Prop := {
  g_nonempty : Forall (fun i : entry => snd i <> []) queue;
  g_tasks : Permutation (concat (List.map snd queue)) (List.map fst occ);
  g_distinct : NoDup (List.map keyOf (List.filter stacked queue));
  g_order : sublist (List.map fst queue) (List.map snd occ);
  g_groups : Forall (fun i : entry =>
                exists first rest,
                  snd i = first :: rest
                  /\ In (first, fst i) occ
                  /\ (stacked i = false -> rest = [])
                  /\ Forall (fun t =>
                               projectOf t = projectOf first
                               /\ exists e, In (t, e) occ
                                            /\ stackOf e = stackOf (fst i))
                       rest)
               queue
}.

Lemma gathered_nil : gathered [] [].
Proof. split; cbn; constructor. Qed.

Lemma groups_weaken occ occ' queue :
  (forall x, In x occ -> In x occ') ->
  Forall (fun i : entry =>
            exists first rest,
              snd i = first :: rest
              /\ In (first, fst i) occ
              /\ (stacked i = false -> rest = [])
              /\ Forall (fun t =>
                           projectOf t = projectOf first
                           /\ exists e, In (t, e) occ
                                        /\ stackOf e = stackOf (fst i))
                   rest)
    queue ->
  Forall (fun i : entry =>
            exists first rest,
              snd i = first :: rest
              /\ In (first, fst i) occ'
              /\ (stacked i = false -> rest = [])
              /\ Forall (fun t =>
                           projectOf t = projectOf first
                           /\ exists e, In (t, e) occ'
                                        /\ stackOf e = stackOf (fst i))
                   rest)
    queue.
Proof.
  intros Hin. apply List.Forall_impl.
  intros i (first & rest & Hs & Hf & Hst & Hall).
  exists first, rest. split_and!; auto.
  eapply List.Forall_impl; [|exact Hall].
  intros t (Hp & e & He & Hse). split; [exact Hp|]. exists e. auto.
Qed.

Lemma addError_gathered task queue occ error :
  gathered queue occ ->
  exists queue',
    addError task queue error = Some queue'
    /\ gathered queue' (occ ++ [(task, error)]).
Proof.
  intros Hg. unfold addError.
  assert (Hin : forall x, In x occ -> In x (occ ++ [(task, error)]))
    by (intros x Hx; apply in_or_app; now left).
  assert (Hlast : In (task, error) (occ ++ [(task, error)]))
    by (apply in_or_app; right; now left).
  assert (Hnew :
            (stacked (error, [task]) = true ->
             Forall (fun i => keyOf i <> (stackOf error, projectOf task)) queue) ->
            gathered (queue ++ [(error, [task])]) (occ ++ [(task, error)])).
  { intros Hfresh. split.
    - apply Forall_app. split; [apply Hg|]. now repeat constructor.
    - rewrite !List.map_app, concat_app, (g_tasks _ _ Hg). reflexivity.
    - rewrite List.filter_app, List.map_app. cbn [List.filter].
      destruct (stacked (error, [task])) eqn:Hst.
      + cbn [List.map]. apply NoDup_app. split_and!.
        * apply Hg.
        * intros k Hk [<-|[]]%list_elem_of_In.
          apply list_elem_of_In, in_map_iff in Hk.
          destruct Hk as (i & Hki & Hi). apply List.filter_In in Hi.
          specialize (Hfresh eq_refl). rewrite List.Forall_forall in Hfresh.
          now apply (Hfresh i).
        * repeat constructor. intros []%list_elem_of_In.
      + cbn [List.map]. rewrite app_nil_r. apply Hg.
    - rewrite !List.map_app. apply sublist_app; [apply Hg|reflexivity].
    - apply Forall_app. split.
      + eapply groups_weaken; [exact Hin|apply Hg].
      + constructor; [|constructor].
        exists task, []. split_and!; auto. }
  destruct (truthy (stackOf error)) eqn:Hst.
  - destruct (pushOnPrevious_spec task (stackOf error) queue (g_nonempty _ _ Hg))
      as [[-> Hfresh]|(q1 & i & q2 & -> & -> & Hk)].
    + eexists. split; [reflexivity|]. apply Hnew. intros _. exact Hfresh.
    + eexists. split; [reflexivity|].
      pose proof (g_nonempty _ _ Hg) as Hne.
      apply Forall_app in Hne. destruct Hne as [Hne1 Hne2].
      apply Forall_cons in Hne2. destruct Hne2 as [Hi Hne2].
      destruct (snd i) as [|first ts] eqn:Hts; [congruence|].
      assert (Hkey : keyOf (fst i, (first :: ts) ++ [task]) = keyOf i).
      { unfold keyOf. cbn. now rewrite Hts. }
      assert (Hstk : stacked (fst i, (first :: ts) ++ [task]) = stacked i)
        by reflexivity.
      split.
      * apply Forall_app. split; [exact Hne1|].
        constructor; [cbn; discriminate|exact Hne2].
      * rewrite !List.map_app, !concat_app. cbn [List.map concat fst snd].
        pose proof (g_tasks _ _ Hg) as Hp.
        rewrite !List.map_app, !concat_app in Hp.
        cbn [List.map concat] in Hp. rewrite Hts in Hp. rewrite <- Hp.
        rewrite <- !app_assoc. apply Permutation_app_head.
        apply Permutation_app_head, Permutation_app_comm.
      * pose proof (g_distinct _ _ Hg) as Hd.
        rewrite List.filter_app in *. cbn [List.filter] in *.
        rewrite Hstk. destruct (stacked i); rewrite !List.map_app in *;
          cbn [List.map] in *; [rewrite Hkey|]; exact Hd.
      * pose proof (g_order _ _ Hg) as Ho.
        rewrite !List.map_app in *. cbn [List.map fst] in *.
        now apply sublist_inserts_r.
      * pose proof (g_groups _ _ Hg) as Hgr.
        apply (groups_weaken _ _ _ Hin) in Hgr.
        apply Forall_app in Hgr. destruct Hgr as [Hg1 Hg2].
        apply Forall_cons in Hg2. destruct Hg2 as [Hgi Hg2].
        apply Forall_app. split; [exact Hg1|]. constructor; [|exact Hg2].
        destruct Hgi as (f0 & r0 & Hs0 & Hf0 & Hst0 & Hall0).
        rewrite Hts in Hs0. injection Hs0 as <- <-.
        exists first, (ts ++ [task]). cbn [fst snd]. split_and!; auto.
        -- intros Hfalse. unfold stacked in Hfalse. cbn [fst] in Hfalse.
           unfold keyOf in Hk. injection Hk as Hk1 Hk2.
           rewrite Hk1, Hst in Hfalse. discriminate.
        -- apply Forall_app. split; [exact Hall0|]. constructor; [|constructor].
           unfold keyOf in Hk. rewrite Hts in Hk. injection Hk as Hk1 Hk2.
           split; [congruence|]. exists error. auto.
  - eexists. split; [reflexivity|]. apply Hnew.
    unfold stacked. cbn [fst]. congruence.
Qed.

Lemma addErrors_gathered task errs :
  forall queue occ,
    gathered queue occ ->
    exists queue',
      addErrors task queue errs = Some queue'
      /\ gathered queue' (occ ++ List.map (fun e => (task, e)) errs).
Proof.
  induction errs as [|e errs IH]; intros queue occ Hg.
  - exists queue. rewrite app_nil_r. now split.
  - destruct (addError_gathered task queue occ e Hg) as (q1 & H1 & Hg1).
    destruct (IH q1 _ Hg1) as (q2 & H2 & Hg2).
    exists q2. cbn [addErrors List.map]. rewrite H1.
    split; [exact H2|]. now rewrite <- app_assoc in Hg2.
Qed.

Lemma gather_gathered tasks :
  forall queue occ,
    gathered queue occ ->
    exists queue',
      gather queue tasks = Some queue'
      /\ gathered queue' (occ ++ occurrences tasks).
Proof.
  induction tasks as [|t tasks IH]; intros queue occ Hg.
  - exists queue. unfold occurrences. cbn. rewrite app_nil_r. now split.
  - destruct (addErrors_gathered t (errorsOf t) queue occ Hg) as (q1 & H1 & Hg1).
    destruct (IH q1 _ Hg1) as (q2 & H2 & Hg2).
    exists q2. cbn [gather]. rewrite H1. split; [exact H2|].
    unfold occurrences in *. cbn [flat_map]. now rewrite app_assoc.
Qed.

Lemma errorsQueue_gathered tasks :
  exists queue,
    errorsQueue tasks = Some queue /\ gathered queue (occurrences tasks).
Proof. apply (gather_gathered tasks [] [] gathered_nil). Qed.

End ReporterFacts.

(** X11: the gathering of [printTaskErrors] never throws; every error of every
    task puts its task into exactly one entry of the queue, and no entry is
    left without a task, so that [tasks[0]] is defined when the entry is
    printed. *)
Theorem errorsQueue_keeps_every_error (tasks : list Reporter.ReportedTask) :
  exists queue,
    Reporter.errorsQueue tasks = Some queue
    /\ concat (List.map snd queue)
       ≡ₚ List.map fst (Reporter.occurrences tasks)
    /\ Forall (fun i : Reporter.entry => snd i <> []) queue.
Proof.
  destruct (ReporterFacts.errorsQueue_gathered tasks) as (queue & Hq & Hg).
  exists queue. split_and!; [exact Hq|apply Hg|apply Hg].
Qed.

(** X12: no two entries of the queue have the same stack and the same project,
    unless their errors have no stack. *)
Theorem merged_entries_are_distinct (tasks : list Reporter.ReportedTask) :
  exists queue,
    Reporter.errorsQueue tasks = Some queue
    /\ NoDup (List.map Reporter.keyOf (List.filter Reporter.stacked queue)).
Proof.
  destruct (ReporterFacts.errorsQueue_gathered tasks) as (queue & Hq & Hg).
  exists queue. split; [exact Hq|apply Hg].
Qed.

(** X13: the error of an entry is an error of the entry's first task; every
    further task of the entry is of the same project and has an error with
    the same stack; an entry whose error has no stack has one task. *)
Theorem merged_tasks_share_stack_and_project
    (tasks : list Reporter.ReportedTask) :
  exists queue,
    Reporter.errorsQueue tasks = Some queue
    /\ Forall (fun i : Reporter.entry =>
         exists first rest,
           snd i = first :: rest
           /\ In (first, fst i) (Reporter.occurrences tasks)
           /\ (Reporter.stacked i = false -> rest = [])
           /\ Forall (fun t =>
                Reporter.projectOf t = Reporter.projectOf first
                /\ exists e,
                     In (t, e) (Reporter.occurrences tasks)
                     /\ Reporter.stackOf e = Reporter.stackOf (fst i))
                rest)
         queue.
Proof.
  destruct (ReporterFacts.errorsQueue_gathered tasks) as (queue & Hq & Hg).
  exists queue. split; [exact Hq|apply Hg].
Qed.

(** X14: the errors of the queue are errors of the tasks, in the order in which
    the tasks and their errors are gone through. *)
Theorem queue_follows_the_errors (tasks : list Reporter.ReportedTask) :
  exists queue,
    Reporter.errorsQueue tasks = Some queue
    /\ sublist (List.map fst queue)
         (List.map snd (Reporter.occurrences tasks)).
Proof.
  destruct (ReporterFacts.errorsQueue_gathered tasks) as (queue & Hq & Hg).
  exists queue. split; [exact Hq|apply Hg].
Qed.

(** * Properties of the rerun counter *)

Module WatcherFacts.
Import Watcher.

Definition capped (n : nat) : N := N.min maxCount (N.of_nat n).

Lemma increment_capped n : increment (capped n) = capped (S n).
Proof.
  unfold increment, capped. generalize maxCount. intros k.
  destruct (N.ltb_spec (N.min k (N.of_nat n)) k); lia.
Qed.

(** The value that the count [n] leaves in the map. *)
Definition stored (n : nat) : option N :=
  match n with
  | O => None
  | S _ => Some (capped n)
  end.

Lemma countRerun_stored m f g n :
  m !! f = stored n ->
  countRerun m g !! f = stored (if string_dec g f then S n else n).
Proof.
  intros Hm. unfold countRerun.
  destruct (string_dec g f) as [->|Hne].
  - rewrite lookup_insert_eq, Hm. cbn [stored]. f_equal.
    destruct n as [|n]; [reflexivity|]. apply increment_capped.
  - rewrite lookup_insert_ne by exact Hne. exact Hm.
Qed.

Lemma countReruns_stored files :
  forall m f n,
    m !! f = stored n ->
    countReruns files m !! f = stored (count_occ string_dec files f + n).
Proof.
  induction files as [|g files IH]; intros m f n Hm; [exact Hm|].
  cbn [countReruns foldl count_occ].
  change (foldl countRerun (countRerun m g) files)
    with (countReruns files (countRerun m g)).
  rewrite (IH _ f _ (countRerun_stored m f g n Hm)).
  destruct (string_dec g f); f_equal; lia.
Qed.

Lemma session_snoc runs files :
  session (runs ++ [files]) = countReruns files (session runs).
Proof. unfold session. now rewrite foldl_app. Qed.

Lemma listed_snoc runs files f :
  listed (runs ++ [files]) f
  = (count_occ string_dec files f + listed runs f)%nat.
Proof.
  unfold listed. rewrite concat_app, count_occ_app. cbn [concat].
  rewrite app_nil_r. lia.
Qed.

Lemma session_stored runs f : session runs !! f = stored (listed runs f).
Proof.
  induction runs as [|files runs IH] using rev_ind.
  - apply lookup_empty.
  - rewrite session_snoc, listed_snoc. now apply countReruns_stored.
Qed.

End WatcherFacts.

(** X15: the counter of a file is the number of times the file was listed in the
    calls of [onWatcherRerun], as far as a double can count; a file that was
    never listed has no counter. *)
Theorem rerun_counter_counts_listings (runs : list (list string)) (f : string) :
  Watcher.session runs !! f
  = match Watcher.listed runs f with
    | O => None
    | S n => Some (N.min Watcher.maxCount (N.of_nat (S n)))
    end.
Proof.
  rewrite WatcherFacts.session_stored.
  destruct (Watcher.listed runs f); reflexivity.
Qed.

(** X16: a file that is rerun alone is shown with the number of its listings,
    this one included: the default [1] of the source is never used, and the
    number decreases at no call. *)
Theorem rerun_shown_is_counter (runs : list (list string)) (f : string) :
  snd (Watcher.onWatcherRerun [f] (Watcher.session runs))
  = Some (N.min Watcher.maxCount (N.of_nat (S (Watcher.listed runs f))))
  /\ Watcher.onWatcherRerun [f] (Watcher.session runs)
     = (Watcher.session (runs ++ [[f]]),
        Watcher.session (runs ++ [[f]]) !! f).
Proof.
  assert (H : Watcher.countReruns [f] (Watcher.session runs) !! f
              = WatcherFacts.stored (S (Watcher.listed runs f))).
  { rewrite (WatcherFacts.countReruns_stored [f] _ f _
               (WatcherFacts.session_stored runs f)).
    cbn [count_occ]. destruct (string_dec f f); [reflexivity|congruence]. }
  unfold Watcher.onWatcherRerun.
  rewrite WatcherFacts.session_snoc.
  cbn [snd Watcher.rerunShown length Nat.ltb Nat.leb Nat.eqb orb].
  rewrite H. split; reflexivity.
Qed.
